(** * Marjapussi: trick legality, trick resolution and standing cards

    A shallow embedding of [marjapussi/card.py], [marjapussi/utils.py] and
    [Agent._standing_cards] of [marjapussi/agent.py], with the properties
    of the specification stated and proved over it.

    Conventions of the embedding.
    - Python lists are Rocq lists; list comprehensions with a condition are
      [filter], [next((... for ...), None)] is [find].
    - A [Card] object can only be built by [Card.__init__], which rejects
      every colour outside [COLORS] and every value outside [VALUES]; the
      fields of a card are therefore the two enumerations [Color] and [Value],
      and [Card_init] is the constructor on raw strings.
    - [card.py] reads the names [COLORS] and [VALUES], and [high_card] reads
      [card.VALUES]; the only definitions of these names in the repository are
      the two module constants of [utils.py], which is what they denote here.
    - A trump argument is [None], the empty string or any other string:
      [option string].
    - A function that can raise returns a sum: [inl] of the exception or
      [inr] of the value. *)

From Stdlib Require Import String Ascii.
From Stdlib Require Import List Bool Arith Lia Permutation Sorted.
Import ListNotations.
Open Scope string_scope.
Open Scope nat_scope.
Open Scope list_scope.

(** ** card.py and the constants of utils.py *)

(** The four colours, named as in [Card.COLOR_NAMES]. *)
Inductive Color : Type := Rot | Schell | Eichel | Gruen.

(** The nine values. *)
Inductive Value : Type := VA | VZ | VK | VO | VU | V9 | V8 | V7 | V6.

(** The string a colour is written with in the source. *)
Definition color_code (c : Color) : string :=
  match c with
  | Rot => "r" | Schell => "s" | Eichel => "e" | Gruen => "g"
  end.

(** The string a value is written with in the source. *)
Definition value_code (v : Value) : string :=
  match v with
  | VA => "A" | VZ => "Z" | VK => "K" | VO => "O" | VU => "U"
  | V9 => "9" | V8 => "8" | V7 => "7" | V6 => "6"
  end.

Definition Color_eqb (a b : Color) : bool :=
  match a, b with
  | Rot, Rot | Schell, Schell | Eichel, Eichel | Gruen, Gruen => true
  | _, _ => false
  end.

Definition Value_eqb (a b : Value) : bool :=
  match a, b with
  | VA, VA | VZ, VZ | VK, VK | VO, VO | VU, VU
  | V9, V9 | V8, V8 | V7, V7 | V6, V6 => true
  | _, _ => false
  end.

(** [COLORS = ["r", "s", "e", "g"]] *)
Definition COLORS : list Color := [Rot; Schell; Eichel; Gruen].

(** [VALUES = ["A", "Z", "K", "O", "U", "9", "8", "7", "6"]] *)
Definition VALUES : list Value := [VA; VZ; VK; VO; VU; V9; V8; V7; V6].

Record Card : Type := mkCard { color : Color; value : Value }.

(** [Card.__eq__]: same colour and same value. *)
Definition Card_eqb (a b : Card) : bool :=
  Color_eqb (color a) (color b) && Value_eqb (value a) (value b).

(** [Card.__str__] *)
Definition Card_str (c : Card) : string :=
  (color_code (color c) ++ "-" ++ value_code (value c))%string.

(** The exceptions of the code: the [ValueError] of the constructor and the
    [TypeError] of a comparison the operands do not support. *)
Inductive exn : Type :=
| ValueError (msg : string)
| TypeError (msg : string).

(** [Card.__init__(color, value)] on arbitrary strings: the two membership
    tests in the order of the source, then the object. *)
Definition Card_init (col val : string) : exn + Card :=
  match find (fun c => String.eqb (color_code c) col) COLORS with
  | None => inl (ValueError ("Invalid color: " ++ col)%string)
  | Some c =>
      match find (fun v => String.eqb (value_code v) val) VALUES with
      | None => inl (ValueError ("Invalid value: " ++ val)%string)
      | Some v => inr (mkCard c v)
      end
  end.

(** [list.index(x)]: the position of the first occurrence.  Python raises
    [ValueError] when [x] does not occur; the model then yields the length of
    the list.  Every [Value] occurs in [VALUES] (lemma [VALUES_complete]), so
    that case is never reached from the functions below. *)
Fixpoint index {A : Type} (eqb : A -> A -> bool) (x : A) (l : list A) : nat :=
  match l with
  | [] => 0
  | y :: ys => if eqb x y then 0 else S (index eqb x ys)
  end.

(** [VALUES.index(card.value)], the sort key of the resolver. *)
Definition value_index (c : Card) : nat := index Value_eqb (value c) VALUES.

(** [Card.is_higher_than] *)
Definition is_higher_than (self other : Card) : bool :=
  value_index other <? value_index self.

(** [CARDS = [Card(c, v) for c in COLORS for v in VALUES]] *)
Definition CARDS : list Card :=
  flat_map (fun c => map (fun v => mkCard c v) VALUES) COLORS.

(** ** utils.py *)

(** Truth value of a trump argument ([if trump], [not trump]): [None] and
    the empty string are false, every other string is true. *)
Definition truthy (trump : option string) : bool :=
  match trump with
  | None => false
  | Some t => negb (String.eqb t "")
  end.

(** [card.color == trump] *)
Definition color_is (trump : option string) (card : Card) : bool :=
  match trump with
  | None => false
  | Some t => String.eqb (color_code (color card)) t
  end.

(** [not l] for a list. *)
Definition is_empty {A : Type} (l : list A) : bool :=
  match l with
  | [] => true
  | _ :: _ => false
  end.

(** [allowed_first]: "First player has to play an ace, green or any card." *)
Definition allowed_first (cards : list Card) : list Card :=
  let allowed := filter (fun c => Value_eqb (value c) VA) cards in
  let allowed :=
    if is_empty allowed
    then filter (fun c => Color_eqb (color c) Gruen) cards
    else allowed in
  let allowed := if is_empty allowed then cards else allowed in
  allowed.

(** [max(l, default=d, key=key)]: the loop of the builtin keeps the current
    best unless a later element has a strictly greater key, so of several
    elements with the greatest key the first one is returned. *)
Definition max_key {A : Type} (key : A -> nat) (l : list A)
    (default : option A) : option A :=
  match l with
  | [] => default
  | x :: xs =>
      Some (fold_left (fun best y => if key best <? key y then y else best) xs x)
  end.

(** The message of the [TypeError] raised when two cards are compared with
    [>]: [Card] defines [__eq__] and [__hash__] and no ordering. *)
Definition Card_gt_error : string :=
  "'>' not supported between instances of 'Card' and 'Card'".

(** [max(l, default=d)] on cards, without a key: the builtin compares the
    elements themselves.  An empty list gives the default and a list of one
    card gives that card, neither with a comparison; with two cards or more
    the first comparison raises [TypeError]. *)
Definition max_nokey (l : list Card) (default : option Card) : exn + option Card :=
  match l with
  | [] => inr default
  | [x] => inr (Some x)
  | _ :: _ :: _ => inl (TypeError Card_gt_error)
  end.

(** [high_card]: "Finds the highest card in single trick."  The [key]
    argument of the source belongs to the outer [max] only; the inner
    [max(base_col_cards, default=None)] has none and is evaluated first, as
    an argument of the outer call. *)
Definition high_card (cards : list Card) (trump : option string)
    : exn + option Card :=
  match cards with
  | [] => inr None
  | c0 :: _ =>
      let col := color c0 in
      let base_col_cards := filter (fun card => Color_eqb (color card) col) cards in
      let trump_cards := filter (color_is trump) cards in
      match max_nokey base_col_cards None with
      | inl e => inl e
      | inr default => inr (max_key value_index trump_cards default)
      end
  end.

(** [high in allowed], by [Card.__eq__].  [high] is [None] only for an empty
    trick, which [allowed_general] has left before this test. *)
Definition contains (high : option Card) (allowed : list Card) : bool :=
  match high with
  | Some h => existsb (Card_eqb h) allowed
  | None => false
  end.

(** [[high]] *)
Definition singleton (high : option Card) : list Card :=
  match high with
  | Some h => [h]
  | None => []
  end.

(** [next((card for card in cards
          if card.color == trick_col and card.value == 'A'), None)] *)
Definition find_ace (trick_col : Color) (cards : list Card) : option Card :=
  find (fun card => Color_eqb (color card) trick_col && Value_eqb (value card) VA)
       cards.

(** [allowed_general(trick, cards, trump=None, first=False)] *)
Definition allowed_general (trick cards : list Card) (trump : option string)
    (first : bool) : exn + list Card :=
  if (length trick =? 0) && first then inr (allowed_first cards)
  else
    match trick with
    | [] => inr cards
    | t0 :: _ =>
        let trick_col := color t0 in
        let ace := if first then find_ace trick_col cards else None in
        match ace with
        | Some a => inr [a]
        | None =>
            let allowed := filter (fun card => Color_eqb (color card) trick_col) cards in
            let allowed :=
              if is_empty allowed then filter (color_is trump) cards else allowed in
            match high_card (trick ++ allowed) trump with
            | inl e => inl e
            | inr high =>
                let allowed :=
                  if contains high allowed then singleton high else allowed in
                inr (if is_empty allowed then cards else allowed)
            end
        end
    end.

(** The cards a follower is restricted to before the test on the winning
    card (the two assignments to [allowed] that precede [high_card] in
    [allowed_general]): the cards of the led colour or, when the hand has
    none, the cards of the trump colour. *)
Definition follow_subset (trick_col : Color) (cards : list Card)
    (trump : option string) : list Card :=
  let allowed := filter (fun card => Color_eqb (color card) trick_col) cards in
  if is_empty allowed then filter (color_is trump) cards else allowed.

(** [higher_value]: "Returns True if card has higher value than base." *)
Definition higher_value (base card : Card) : bool := is_higher_than card base.

(** [higher_cards(base, trump='', pool=None)]: "Returns all cards out of the
    pool that would win a trick over base as high card." *)
Definition higher_cards (base : Card) (trump : option string)
    (pool : option (list Card)) : list Card :=
  let pool := match pool with None => CARDS | Some p => p end in
  if negb (truthy trump)
  then filter (fun card => is_higher_than card base
                           && Color_eqb (color base) (color card)) pool
  else filter (fun card => (is_higher_than card base
                            && Color_eqb (color base) (color card))
                           || color_is trump card) pool.

(** [all_color_cards] *)
Definition all_color_cards (col : Color) : list Card :=
  map (fun v => mkCard col v) VALUES.

(** ** agent.py: [Agent._standing_cards]

    The method reads [card.suit] and [card.rank] and a dictionary from suits
    to lists of cards; the card class with these attributes is not part of
    the sources at hand. *)

(** Modelled from the spec: [card.suit] is the suit of the card, the colour
    of [card.py]. *)
Definition suit (c : Card) : Color := color c.

(** Modelled from the spec: [card.rank] orders cards by the canonical
    ascending-strength sequence, the position of the value in [VALUES]. *)
Definition rank (c : Card) : nat := value_index c.

(** The [possible] dictionary, keyed by suit. *)
Definition dict : Type := Color -> option (list Card).

(** [possible.get(suit, default)] *)
Definition dict_get (d : dict) (k : Color) (default : list Card) : list Card :=
  match d k with
  | Some v => v
  | None => default
  end.

(** [sorted(l, key=key, reverse=True)]: descending and stable (elements with
    equal keys keep their order). *)
Fixpoint insert_desc {A : Type} (key : A -> nat) (x : A) (l : list A) : list A :=
  match l with
  | [] => [x]
  | y :: ys => if key x <? key y then y :: insert_desc key x ys else x :: l
  end.

Definition sorted_desc {A : Type} (key : A -> nat) (l : list A) : list A :=
  fold_right (insert_desc key) [] l.

(** [[card for card in player_hand if card.suit == suit]] *)
Definition cards_of_suit (su : Color) (player_hand : list Card) : list Card :=
  filter (fun card => Color_eqb (suit card) su) player_hand.

(** The body of the loop [for suit in set(...)] for one suit: the cards it
    appends to [standing_cards].  The suit comes from a card of the hand, so
    [cards_in_hand] is not empty and [max] does not raise. *)
Definition standing_of_suit (possible : dict) (player_hand : list Card)
    (su : Color) : list Card :=
  let cards_in_hand := cards_of_suit su player_hand in
  let possible_cards := dict_get possible su [] in
  match max_key rank cards_in_hand None with
  | None => []
  | Some highest_in_hand =>
      (match max_key rank possible_cards None with
       | Some highest_possible =>
           if rank highest_possible <=? rank highest_in_hand
           then [highest_in_hand] else []
       | None => []
       end)
      ++
      (if length possible_cards <? length cards_in_hand
       then firstn (length cards_in_hand - length possible_cards)
                   (sorted_desc rank cards_in_hand)
       else [])
  end.

(** The loop over the suits, visited in the order [order]. *)
Definition standing_loop (order : list Color) (possible : dict)
    (player_hand : list Card) : list Card :=
  flat_map (standing_of_suit possible player_hand) order.

Definition Color_eq_dec (a b : Color) : {a = b} + {a <> b}.
Proof. decide equality. Defined.

(** [set(card.suit for card in player_hand)].  Python does not fix the order
    in which a set is iterated; the model visits the suits in the order of
    their last occurrence in the hand, and the statements below are about
    membership, which does not depend on that order. *)
Definition suit_set (player_hand : list Card) : list Color :=
  nodup Color_eq_dec (map suit player_hand).

(** [_standing_cards(self, possible, player_hand, trump_suit='')]: "Returns
    all cards with which player_name could possibly win a trick." *)
Definition _standing_cards (possible : dict) (player_hand : list Card)
    (trump_suit : option string) : list Card :=
  if truthy trump_suit
  then
    let trump_cards_in_hand := filter (color_is trump_suit) player_hand in
    match max_key rank trump_cards_in_hand None with
    | Some highest_trump => [highest_trump]
    | None => []
    end
  else standing_loop (suit_set player_hand) possible player_hand.

(** ** utils.py: the remaining card helpers *)

(** [contains_pair(cards, col)]: a King and an Over of colour [col]. *)
Definition contains_pair (cards : list Card) (col : string) : bool :=
  existsb (fun card => color_is (Some col) card && Value_eqb (value card) VK) cards
  && existsb (fun card => color_is (Some col) card && Value_eqb (value card) VO) cards.

(** [contains_half(cards, col)]: a King or an Over of colour [col]. *)
Definition contains_half (cards : list Card) (col : string) : bool :=
  existsb (fun card => color_is (Some col) card
                       && (Value_eqb (value card) VK || Value_eqb (value card) VO))
          cards.

(** [COLORS.index(card.color)] *)
Definition color_index (c : Card) : nat := index Color_eqb (color c) COLORS.

(** The sort key of [sorted_cards]:
    [(COLORS.index(card.color), VALUES.index(card.value))]. *)
Definition sort_key (c : Card) : nat * nat := (color_index c, value_index c).

(** [a < b] on pairs of integers, as Python compares tuples: by the first
    components, and by the second ones when the first are equal. *)
Definition tuple_ltb (a b : nat * nat) : bool :=
  (fst a <? fst b) || ((fst a =? fst b) && (snd a <? snd b)).

(** [sorted(l, key=key)]: ascending and stable.  An element is placed before
    the elements of the sorted rest that are not strictly smaller. *)
Fixpoint insert_asc {A K : Type} (key : A -> K) (ltb : K -> K -> bool)
    (x : A) (l : list A) : list A :=
  match l with
  | [] => [x]
  | y :: ys => if ltb (key y) (key x) then y :: insert_asc key ltb x ys else x :: l
  end.

Definition sorted_asc {A K : Type} (key : A -> K) (ltb : K -> K -> bool)
    (l : list A) : list A :=
  fold_right (insert_asc key ltb) [] l.

(** [sorted_cards] *)
Definition sorted_cards (cards : list Card) : list Card :=
  sorted_asc sort_key tuple_ltb cards.

(** [all_value_cards]: "Returns all cards with given type." *)
Definition all_value_cards (v : Value) : list Card :=
  map (fun c => mkCard c v) COLORS.

(** A list comprehension whose elements may raise: the elements are
    evaluated in order and the first exception leaves the comprehension. *)
Fixpoint collect {E A : Type} (l : list (E + A)) : E + list A :=
  match l with
  | [] => inr []
  | inl e :: _ => inl e
  | inr a :: xs =>
      match collect xs with
      | inl e => inl e
      | inr r => inr (a :: r)
      end
  end.

(** [all_color_cards(col)] called with an arbitrary string:
    [[Card(col, v) for v in VALUES]] through the constructor. *)
Definition all_color_cards_raw (col : string) : exn + list Card :=
  collect (map (fun v => Card_init col (value_code v)) VALUES).

(** [all_value_cards(value)] called with an arbitrary string:
    [[Card(c, value) for c in COLORS]] through the constructor. *)
Definition all_value_cards_raw (val : string) : exn + list Card :=
  collect (map (fun c => Card_init (color_code c) val) COLORS).

(** ** Predicates of the statements *)

(** [h] takes the trick [cards] under [trump]: a card of the trump colour
    that no trump card of the trick outranks or, in a trick without a trump
    card, a card of the led colour that no card of that colour outranks. *)
Definition wins (cards : list Card) (trump : option string) (h : Card) : Prop :=
  In h cards
  /\ ((color_is trump h = true
       /\ forall x, In x cards -> color_is trump x = true ->
                    value_index x <= value_index h)
      \/ ((forall x, In x cards -> color_is trump x = false)
          /\ (exists c0 rest, cards = c0 :: rest /\ color h = color c0)
          /\ forall x, In x cards -> color x = color h ->
                       value_index x <= value_index h)).

(** The last two statements of [allowed_general] once [high_card] has
    returned [high]: the winning card when the subset holds it, else the
    subset, else the hand. *)
Definition overtake (high : option Card) (sub cards : list Card) : list Card :=
  let allowed := if contains high sub then singleton high else sub in
  if is_empty allowed then cards else allowed.

(** [a] does not come after [b] in the order of [sorted_cards]. *)
Definition card_le (a b : Card) : Prop :=
  tuple_ltb (sort_key b) (sort_key a) = false.

(** ** Basic facts on the enumerations *)

Lemma Color_eqb_eq (a b : Color) : Color_eqb a b = true <-> a = b.
Proof. destruct a, b; simpl; split; congruence. Qed.

Lemma Value_eqb_eq (a b : Value) : Value_eqb a b = true <-> a = b.
Proof. destruct a, b; simpl; split; congruence. Qed.

Lemma Color_eqb_refl (a : Color) : Color_eqb a a = true.
Proof. now destruct a. Qed.

Lemma Value_eqb_refl (a : Value) : Value_eqb a a = true.
Proof. now destruct a. Qed.

Lemma Card_eqb_eq (a b : Card) : Card_eqb a b = true <-> a = b.
Proof.
  destruct a as [ca va], b as [cb vb]; unfold Card_eqb; simpl.
  rewrite andb_true_iff, Color_eqb_eq, Value_eqb_eq.
  split; [intros [-> ->]; reflexivity | intros H; inversion H; auto].
Qed.

Lemma Card_eqb_refl (a : Card) : Card_eqb a a = true.
Proof. now apply Card_eqb_eq. Qed.

Lemma COLORS_complete (c : Color) : In c COLORS.
Proof. destruct c; simpl; tauto. Qed.

Lemma VALUES_complete (v : Value) : In v VALUES.
Proof. destruct v; simpl; tauto. Qed.

Lemma CARDS_complete (c : Card) : In c CARDS.
Proof. destruct c as [[] []]; vm_compute; tauto. Qed.

Lemma value_index_nth (c : Card) :
  nth_error VALUES (value_index c) = Some (value c).
Proof. destruct c as [cc []]; reflexivity. Qed.

Lemma value_index_inj (a b : Card) :
  value_index a = value_index b -> value a = value b.
Proof.
  intros H. pose proof (value_index_nth a) as Ha.
  rewrite H, value_index_nth in Ha. congruence.
Qed.

Lemma nth_VALUES_index (c : Card) (i : nat) :
  nth_error VALUES i = Some (value c) -> value_index c = i.
Proof.
  destruct c as [cc v]; unfold value_index; simpl.
  do 9 (destruct i as [|i]; [simpl; intros [= <-]; reflexivity|]).
  destruct i; discriminate.
Qed.

Lemma color_code_inj (a b : Color) : color_code a = color_code b -> a = b.
Proof. destruct a, b; simpl; intros H; congruence || discriminate H. Qed.

Lemma value_code_inj (a b : Value) : value_code a = value_code b -> a = b.
Proof. destruct a, b; simpl; intros H; congruence || discriminate H. Qed.

Lemma is_empty_true {A : Type} (l : list A) : is_empty l = true <-> l = [].
Proof. destruct l; simpl; split; congruence. Qed.

Lemma is_empty_false {A : Type} (l : list A) : is_empty l = false <-> l <> [].
Proof. destruct l; simpl; split; congruence. Qed.

(** ** The builtin [max] with a key *)

Section MaxKey.
Context {A : Type} (key : A -> nat).

Let step (best y : A) : A := if key best <? key y then y else best.

Lemma fold_step_spec (xs : list A) (x : A) :
  let m := fold_left step xs x in
  In m (x :: xs) /\ forall y, In y (x :: xs) -> key y <= key m.
Proof.
  revert x. induction xs as [|y ys IH]; intros x; simpl.
  - split; [now left | intros z [<- | []]; lia].
  - destruct (IH (step x y)) as [Hin Hmax]. split.
    + destruct Hin as [Hin | Hin]; [| now right; right].
      assert (Hs : step x y = x \/ step x y = y).
      { unfold step. destruct (key x <? key y); tauto. }
      rewrite <- Hin. destruct Hs as [-> | ->]; tauto.
    + intros z Hz.
      assert (Hxy : key x <= key (step x y) /\ key y <= key (step x y)).
      { unfold step. destruct (Nat.ltb_spec (key x) (key y)); lia. }
      destruct Hz as [<- | [<- | Hz]].
      * specialize (Hmax (step x y) (or_introl eq_refl)). lia.
      * specialize (Hmax (step x y) (or_introl eq_refl)). lia.
      * apply Hmax. now right.
Qed.

Lemma max_key_nil (d : option A) : max_key key [] d = d.
Proof. reflexivity. Qed.

Lemma max_key_cons (x : A) (xs : list A) (d : option A) :
  exists m, max_key key (x :: xs) d = Some m /\ In m (x :: xs)
            /\ forall y, In y (x :: xs) -> key y <= key m.
Proof.
  exists (fold_left step xs x). split; [reflexivity | apply fold_step_spec].
Qed.

Lemma max_key_spec (l : list A) (d : option A) :
  l <> [] ->
  exists m, max_key key l d = Some m /\ In m l
            /\ forall y, In y l -> key y <= key m.
Proof. destruct l as [|x xs]; [congruence | intros _; apply max_key_cons]. Qed.

Lemma max_key_None (l : list A) : max_key key l None = None <-> l = [].
Proof.
  destruct l as [|x xs]; simpl; split; congruence.
Qed.

Lemma max_key_Some (l : list A) (m : A) :
  max_key key l None = Some m ->
  In m l /\ forall y, In y l -> key y <= key m.
Proof.
  destruct l as [|x xs]; [discriminate |].
  intros [= <-]. apply fold_step_spec.
Qed.
End MaxKey.

(** ** Rank comparison (card.py) *)

(** C3.  [is_higher_than] implements the ascending-strength order
    A, Z, K, O, U, 9, 8, 7, 6: when the value of [a] stands at position [i]
    of that sequence and the value of [b] at position [j], [a] is higher than
    [b] exactly when [j < i], whatever the colours; so a card of value A is
    higher than no card and no card is higher than a card of value 6. *)
Theorem is_higher_than_canonical_order (a b : Card) (i j : nat)
    (Hi : nth_error [VA; VZ; VK; VO; VU; V9; V8; V7; V6] i = Some (value a))
    (Hj : nth_error [VA; VZ; VK; VO; VU; V9; V8; V7; V6] j = Some (value b)) :
  (is_higher_than a b = true <-> j < i)
  /\ (value a = VA -> is_higher_than a b = false)
  /\ (value b = V6 -> is_higher_than a b = false).
Proof.
  apply nth_VALUES_index in Hi, Hj. unfold is_higher_than.
  rewrite Hi, Hj, Nat.ltb_lt. split; [tauto |].
  assert (Hi8 : i <= 8).
  { rewrite <- Hi. destruct a as [ca []]; vm_compute; lia. }
  split; intros Hv; apply Nat.ltb_ge.
  - rewrite <- Hi. unfold value_index. rewrite Hv. simpl. lia.
  - rewrite <- Hj. unfold value_index. rewrite Hv. simpl. lia.
Qed.

Lemma is_higher_than_canonical_order_witness :
  (is_higher_than (mkCard Rot V6) (mkCard Gruen VA) = true <-> 0 < 8)
  /\ (V6 = VA -> is_higher_than (mkCard Rot V6) (mkCard Gruen VA) = false)
  /\ (VA = V6 -> is_higher_than (mkCard Rot V6) (mkCard Gruen VA) = false).
Proof.
  exact (is_higher_than_canonical_order (mkCard Rot V6) (mkCard Gruen VA) 8 0
           eq_refl eq_refl).
Defined.

(** ** Card construction (card.py) *)

Lemma find_color_code (col : string) :
  match find (fun c => String.eqb (color_code c) col) COLORS with
  | Some c => color_code c = col
  | None => ~ In col (map color_code COLORS)
  end.
Proof.
  destruct (find _ COLORS) as [c|] eqn:E.
  - apply find_some in E. now apply String.eqb_eq.
  - intros Hin. apply in_map_iff in Hin. destruct Hin as [c [Hc Hin]].
    apply (find_none _ _ E) in Hin. simpl in Hin.
    rewrite <- Hc, String.eqb_refl in Hin. discriminate.
Qed.

Lemma find_value_code (val : string) :
  match find (fun v => String.eqb (value_code v) val) VALUES with
  | Some v => value_code v = val
  | None => ~ In val (map value_code VALUES)
  end.
Proof.
  destruct (find _ VALUES) as [v|] eqn:E.
  - apply find_some in E. now apply String.eqb_eq.
  - intros Hin. apply in_map_iff in Hin. destruct Hin as [v [Hv Hin]].
    apply (find_none _ _ E) in Hin. simpl in Hin.
    rewrite <- Hv, String.eqb_refl in Hin. discriminate.
Qed.

(** C9.  Constructing a card from a colour outside the four colours or a
    value outside the nine values fails with a [ValueError]; for a colour and
    a value of the domain the construction succeeds and yields the card with
    that colour and value; and every card is one of the 4 x 9 = 36 cards of
    [CARDS]. *)
Theorem Card_init_domain (col val : string) :
  (~ In col (map color_code COLORS) \/ ~ In val (map value_code VALUES) ->
     exists msg, Card_init col val = inl (ValueError msg))
  /\ (In col (map color_code COLORS) -> In val (map value_code VALUES) ->
        exists card, Card_init col val = inr card
                     /\ color_code (color card) = col
                     /\ value_code (value card) = val)
  /\ (forall card, Card_init col val = inr card ->
        In col (map color_code COLORS) /\ In val (map value_code VALUES))
  /\ (forall card : Card, In card CARDS)
  /\ length CARDS = 4 * 9.
Proof.
  unfold Card_init.
  pose proof (find_color_code col) as Hc.
  pose proof (find_value_code val) as Hv.
  destruct (find _ COLORS) as [c|]; destruct (find _ VALUES) as [v|].
  - repeat split.
    + intros [H | H]; exfalso; apply H; apply in_map_iff;
        eauto using COLORS_complete, VALUES_complete.
    + intros _ _. exists (mkCard c v). auto.
    + apply in_map_iff; eauto using COLORS_complete.
    + apply in_map_iff; eauto using VALUES_complete.
    + apply CARDS_complete.
  - repeat split; try (intros; eauto; tauto || discriminate).
    apply CARDS_complete.
  - repeat split; try (intros; eauto; tauto || discriminate).
    apply CARDS_complete.
  - repeat split; try (intros; eauto; tauto || discriminate).
    apply CARDS_complete.
Qed.

(** ** Trick resolution (utils.py, [high_card]) *)

(** ** Trick resolution (utils.py, [high_card]) *)

Lemma filter_nil_iff {A : Type} (f : A -> bool) (l : list A) :
  filter f l = [] <-> forall x, In x l -> f x = false.
Proof.
  induction l as [|a l IH]; simpl.
  - split; [intros _ x [] | reflexivity].
  - destruct (f a) eqn:E; split.
    + discriminate.
    + intros H. specialize (H a (or_introl eq_refl)). congruence.
    + intros H x [<- | Hx]; [assumption | now apply IH].
    + intros H. apply IH. intros x Hx. apply H. now right.
Qed.

Lemma filter_not_nil {A : Type} (f : A -> bool) (l : list A) (x : A) :
  In x l -> f x = true -> filter f l <> [].
Proof.
  intros Hin Hf Hnil. rewrite filter_nil_iff in Hnil.
  specialize (Hnil x Hin). congruence.
Qed.

(** [high_card] on a non-empty sequence: with a second card of the led
    colour the keyless [max] raises; otherwise its result, the led card, is
    the default of the keyed [max] over the trump cards. *)
Lemma high_card_cons (c0 : Card) (rest : list Card) (trump : option string) :
  high_card (c0 :: rest) trump =
  if is_empty (filter (fun card => Color_eqb (color card) (color c0)) rest)
  then inr (max_key value_index (filter (color_is trump) (c0 :: rest)) (Some c0))
  else inl (TypeError Card_gt_error).
Proof.
  unfold high_card. cbn [filter]. rewrite Color_eqb_refl.
  destruct (filter (fun card => Color_eqb (color card) (color c0)) rest);
    reflexivity.
Qed.

Lemma no_led_iff (col : Color) (l : list Card) :
  is_empty (filter (fun card => Color_eqb (color card) col) l) = true <->
  forall x, In x l -> color x <> col.
Proof.
  rewrite is_empty_true, filter_nil_iff. split; intros H x Hx.
  - intros Hc. specialize (H x Hx). simpl in H.
    rewrite Hc, Color_eqb_refl in H. discriminate.
  - apply not_true_is_false. intros Hc. apply Color_eqb_eq in Hc.
    now apply (H x Hx).
Qed.

Lemma high_card_raises (c0 : Card) (rest : list Card) (trump : option string) :
  (exists x, In x rest /\ color x = color c0) ->
  high_card (c0 :: rest) trump = inl (TypeError Card_gt_error).
Proof.
  intros [x [Hin Hc]]. rewrite high_card_cons.
  destruct (is_empty _) eqn:E; [| reflexivity].
  exfalso. exact (proj1 (no_led_iff _ _) E x Hin Hc).
Qed.

Lemma high_card_returns (c0 : Card) (rest : list Card) (trump : option string) :
  (forall x, In x rest -> color x <> color c0) ->
  high_card (c0 :: rest) trump
  = inr (max_key value_index (filter (color_is trump) (c0 :: rest)) (Some c0)).
Proof.
  intros H. rewrite high_card_cons. apply no_led_iff in H. now rewrite H.
Qed.



(** Where [high_card] returns: the highest trump card of the sequence. *)
Lemma high_card_trump (c0 : Card) (rest : list Card) (trump : option string)
    (c : Card) :
  (forall x, In x rest -> color x <> color c0) ->
  In c (c0 :: rest) -> color_is trump c = true ->
  exists h, high_card (c0 :: rest) trump = inr (Some h) /\ In h (c0 :: rest)
            /\ color_is trump h = true
            /\ forall x, In x (c0 :: rest) -> color_is trump x = true ->
                         value_index x <= value_index h.
Proof.
  intros Hled Hin Hc. rewrite (high_card_returns _ _ _ Hled).
  destruct (max_key_spec value_index (filter (color_is trump) (c0 :: rest))
              (Some c0) (filter_not_nil _ _ _ Hin Hc)) as [h [Hh [Hhin Hmax]]].
  exists h. rewrite Hh. apply filter_In in Hhin. destruct Hhin as [Hhin Hht].
  repeat split; try assumption.
  intros x Hx Hxt. apply Hmax. now apply filter_In.
Qed.

(** Where [high_card] returns and no trump card was played: the led card. *)
Lemma high_card_led (c0 : Card) (rest : list Card) (trump : option string) :
  (forall x, In x rest -> color x <> color c0) ->
  (forall x, In x (c0 :: rest) -> color_is trump x = false) ->
  high_card (c0 :: rest) trump = inr (Some c0).
Proof.
  intros Hled Hno. rewrite (high_card_returns _ _ _ Hled).
  apply filter_nil_iff in Hno. now rewrite Hno.
Qed.


(** ** Legal plays (utils.py, [allowed_first] and [allowed_general]) *)

(** ** Legal plays (utils.py, [allowed_first] and [allowed_general]) *)

Lemma find_ace_Some (trick_col : Color) (cards : list Card) (a : Card) :
  find_ace trick_col cards = Some a -> a = mkCard trick_col VA /\ In a cards.
Proof.
  intros H. apply find_some in H. destruct H as [Hin Hp].
  apply andb_true_iff in Hp. destruct Hp as [Hc Hv].
  apply Color_eqb_eq in Hc. apply Value_eqb_eq in Hv.
  destruct a as [ca va]; simpl in *. subst. auto.
Qed.

Lemma find_ace_None (trick_col : Color) (cards : list Card) :
  find_ace trick_col cards = None <-> ~ In (mkCard trick_col VA) cards.
Proof.
  split.
  - intros H Hin. apply (find_none _ _ H) in Hin. simpl in Hin.
    rewrite Color_eqb_refl in Hin. discriminate.
  - intros Hno. destruct (find_ace trick_col cards) as [a|] eqn:E; [| reflexivity].
    apply find_ace_Some in E. destruct E as [-> Hin]. contradiction.
Qed.

(** [allowed_general] on a non-empty trick, with its intermediate values
    named. *)
Lemma allowed_general_follow (t0 : Card) (ts cards : list Card)
    (trump : option string) (first : bool) :
  allowed_general (t0 :: ts) cards trump first =
  match (if first then find_ace (color t0) cards else None) with
  | Some a => inr [a]
  | None =>
      let sub := follow_subset (color t0) cards trump in
      match high_card ((t0 :: ts) ++ sub) trump with
      | inl e => inl e
      | inr high => inr (overtake high sub cards)
      end
  end.
Proof. reflexivity. Qed.

Lemma allowed_general_lead (cards : list Card) (trump : option string)
    (first : bool) :
  allowed_general [] cards trump first =
  inr (if first then allowed_first cards else cards).
Proof. destruct first; reflexivity. Qed.

Lemma contains_true (high : option Card) (l : list Card) :
  contains high l = true <-> exists h, high = Some h /\ In h l.
Proof.
  destruct high as [h|]; simpl.
  - rewrite existsb_exists. split.
    + intros [x [Hin Heq]]. apply Card_eqb_eq in Heq. subst x. eauto.
    + intros [h' [[= <-] Hin]]. exists h. split; [assumption | apply Card_eqb_refl].
  - split; [discriminate | intros [h [H _]]; discriminate].
Qed.

Lemma follow_subset_incl (trick_col : Color) (cards : list Card)
    (trump : option string) (c : Card) :
  In c (follow_subset trick_col cards trump) -> In c cards.
Proof.
  unfold follow_subset.
  destruct (is_empty _); intros H; apply filter_In in H; tauto.
Qed.


Lemma allowed_first_cases (cards : list Card) :
  let aces := filter (fun c => Value_eqb (value c) VA) cards in
  let greens := filter (fun c => Color_eqb (color c) Gruen) cards in
  (aces <> [] /\ allowed_first cards = aces)
  \/ (aces = [] /\ greens <> [] /\ allowed_first cards = greens)
  \/ (aces = [] /\ greens = [] /\ allowed_first cards = cards).
Proof.
  unfold allowed_first. simpl.
  destruct (filter (fun c => Value_eqb (value c) VA) cards) as [|a aces] eqn:Ea; simpl.
  - destruct (filter (fun c => Color_eqb (color c) Gruen) cards) as [|g greens] eqn:Eg;
      simpl.
    + right; right. auto.
    + right; left. repeat split; congruence.
  - left. split; congruence.
Qed.

Lemma allowed_first_incl (cards : list Card) (c : Card) :
  In c (allowed_first cards) -> In c cards.
Proof.
  destruct (allowed_first_cases cards) as [[_ Heq] | [[_ [_ Heq]] | [_ [_ Heq]]]];
    cbv zeta in Heq; rewrite Heq; [| | tauto];
    intros H; apply filter_In in H; tauto.
Qed.




Lemma overtake_cases (high : option Card) (sub cards : list Card) :
  (exists h, high = Some h /\ In h sub /\ overtake high sub cards = [h])
  \/ (contains high sub = false /\ sub <> [] /\ overtake high sub cards = sub)
  \/ (sub = [] /\ overtake high sub cards = cards).
Proof.
  unfold overtake. destruct (contains high sub) eqn:E.
  - left. apply contains_true in E. destruct E as [h [Hh Hin]].
    exists h. rewrite Hh. auto.
  - right. destruct sub as [|x xs]; [right | left]; simpl; auto.
    repeat split; congruence.
Qed.

Lemma ace_rule_off (t0 : Card) (cards : list Card) (first : bool) :
  first = false \/ ~ In (mkCard (color t0) VA) cards ->
  (if first then find_ace (color t0) cards else None) = None.
Proof.
  intros Hace. destruct first; [| reflexivity].
  destruct Hace as [Hf | Hno]; [discriminate | now apply find_ace_None].
Qed.

Lemma follow_subset_led (col : Color) (cards : list Card) (trump : option string) :
  (exists c, In c cards /\ color c = col) ->
  follow_subset col cards trump
  = filter (fun card => Color_eqb (color card) col) cards.
Proof.
  intros [c [Hin Hc]]. unfold follow_subset.
  destruct (is_empty _) eqn:E; [| reflexivity].
  apply is_empty_true in E. exfalso.
  apply (filter_not_nil _ _ c Hin) in E; [assumption |].
  now apply Color_eqb_eq.
Qed.


(** Outside the ace rule of the first trick, a second card of the led colour
    in the trick or a card of the led colour in the hand makes
    [allowed_general] raise. *)
Lemma follow_raises (t0 : Card) (ts cards : list Card) (trump : option string)
    (first : bool) :
  (if first then find_ace (color t0) cards else None) = None ->
  (exists x, In x ts /\ color x = color t0)
  \/ (exists c, In c cards /\ color c = color t0) ->
  allowed_general (t0 :: ts) cards trump first = inl (TypeError Card_gt_error).
Proof.
  intros Hoff Hled. rewrite allowed_general_follow, Hoff. cbv zeta.
  simpl app. rewrite high_card_raises; [reflexivity |].
  destruct Hled as [[x [Hx Hc]] | [c [Hin Hc]]].
  - exists x. split; [apply in_or_app; now left | assumption].
  - exists c. split; [| assumption]. apply in_or_app. right.
    rewrite (follow_subset_led _ _ _ (ex_intro _ c (conj Hin Hc))).
    apply filter_In. split; [assumption | now apply Color_eqb_eq].
Qed.

(** What [allowed_general] returns on a non-empty trick, when it returns
    outside the ace rule. *)
Lemma follow_returns (t0 : Card) (ts cards l : list Card)
    (trump : option string) (first : bool) :
  (if first then find_ace (color t0) cards else None) = None ->
  allowed_general (t0 :: ts) cards trump first = inr l ->
  (forall x, In x (ts ++ cards) -> color x <> color t0)
  /\ exists high,
       high_card ((t0 :: ts) ++ follow_subset (color t0) cards trump) trump
       = inr high
       /\ l = overtake high (follow_subset (color t0) cards trump) cards.
Proof.
  intros Hoff Hret. split.
  - intros x Hx Hc. apply in_app_or in Hx.
    rewrite (follow_raises t0 ts cards trump first Hoff) in Hret;
      [discriminate |].
    destruct Hx as [Hx | Hx]; [left | right]; eauto.
  - rewrite allowed_general_follow, Hoff in Hret. cbv zeta in Hret.
    destruct (high_card _ trump) as [e | high]; [discriminate |].
    injection Hret as <-. eauto.
Qed.

(** C1, the code at the failing input.  On the trick led with Rot-A the hand
    Rot-Z, Rot-7 without trump does not yield Rot-7: [allowed_general]
    raises [TypeError], for either flag, and so it does whenever the ace rule
    of the first trick does not apply and the hand holds a card of the led
    colour.  Where [high_card] does return a card of the follow subset, that
    card alone is returned. *)
Theorem forced_overtake_raises :
  (forall flag : bool,
     allowed_general [mkCard Rot VA] [mkCard Rot VZ; mkCard Rot V7] None flag
     = inl (TypeError Card_gt_error))
  /\ (forall t0 ts cards trump first,
        first = false \/ ~ In (mkCard (color t0) VA) cards ->
        (exists c, In c cards /\ color c = color t0) ->
        allowed_general (t0 :: ts) cards trump first
        = inl (TypeError Card_gt_error))
  /\ (forall t0 ts cards trump first h,
        first = false \/ ~ In (mkCard (color t0) VA) cards ->
        high_card ((t0 :: ts) ++ follow_subset (color t0) cards trump) trump
        = inr (Some h) ->
        In h (follow_subset (color t0) cards trump) ->
        allowed_general (t0 :: ts) cards trump first = inr [h]).
Proof.
  split; [intros []; reflexivity |]. split.
  - intros t0 ts cards trump first Hace Hled.
    apply follow_raises; [now apply ace_rule_off | now right].
  - intros t0 ts cards trump first h Hace Hhigh Hin.
    rewrite allowed_general_follow, (ace_rule_off _ _ _ Hace). cbv zeta.
    rewrite Hhigh. unfold overtake.
    assert (Hc : contains (Some h) (follow_subset (color t0) cards trump) = true)
      by (apply contains_true; eauto).
    rewrite Hc. reflexivity.
Qed.

(** C6.  On the first trick, following on a non-empty trick with the ace of
    the led colour in hand, [allowed_general] returns that ace alone,
    whatever the rest of the trick, the rest of the hand and the trump. *)
Theorem first_trick_follow_ace (t0 : Card) (ts cards : list Card)
    (trump : option string)
    (Hace : In (mkCard (color t0) VA) cards) :
  allowed_general (t0 :: ts) cards trump true = inr [mkCard (color t0) VA].
Proof.
  rewrite allowed_general_follow.
  destruct (find_ace (color t0) cards) as [a|] eqn:E.
  - apply find_ace_Some in E. destruct E as [-> _]. reflexivity.
  - apply find_ace_None in E. contradiction.
Qed.

Lemma first_trick_follow_ace_witness :
  allowed_general [mkCard Rot VK; mkCard Rot V9]
    [mkCard Gruen V6; mkCard Rot V6; mkCard Rot VA] (Some "g") true
  = inr [mkCard Rot VA].
Proof.
  apply (first_trick_follow_ace (mkCard Rot VK) [mkCard Rot V9]
           [mkCard Gruen V6; mkCard Rot V6; mkCard Rot VA] (Some "g")).
  simpl. right. right. left. reflexivity.
Defined.

(** C7.  Leading the first trick (empty trick, flag set), [allowed_general]
    returns the aces of the hand when there is one, otherwise the Gruen cards
    of the hand when there is one, otherwise the whole hand.  The hand Rot-A,
    Gruen-K, Schell-7 gives Rot-A; the hand Schell-7, Gruen-K gives
    Gruen-K. *)
Theorem first_trick_lead (cards : list Card) (trump : option string) :
  let aces := filter (fun c => Value_eqb (value c) VA) cards in
  let greens := filter (fun c => Color_eqb (color c) Gruen) cards in
  ((exists c, In c cards /\ value c = VA) ->
     allowed_general [] cards trump true = inr aces)
  /\ ((forall c, In c cards -> value c <> VA) ->
      (exists c, In c cards /\ color c = Gruen) ->
      allowed_general [] cards trump true = inr greens)
  /\ ((forall c, In c cards -> value c <> VA) ->
      (forall c, In c cards -> color c <> Gruen) ->
      allowed_general [] cards trump true = inr cards)
  /\ allowed_general [] [mkCard Rot VA; mkCard Gruen VK; mkCard Schell V7] trump true
     = inr [mkCard Rot VA]
  /\ allowed_general [] [mkCard Schell V7; mkCard Gruen VK] trump true
     = inr [mkCard Gruen VK].
Proof.
  cbv zeta. rewrite allowed_general_lead.
  assert (Ha : forall c, In c cards -> value c <> VA ->
                         Value_eqb (value c) VA = false).
  { intros c _ Hc. destruct (Value_eqb (value c) VA) eqn:E; [| reflexivity].
    apply Value_eqb_eq in E. contradiction. }
  assert (Hg : forall c, In c cards -> color c <> Gruen ->
                         Color_eqb (color c) Gruen = false).
  { intros c _ Hc. destruct (Color_eqb (color c) Gruen) eqn:E; [| reflexivity].
    apply Color_eqb_eq in E. contradiction. }
  destruct (allowed_first_cases cards) as [[Hn Heq] | [[Hn [Hm Heq]] | [Hn [Hm Heq]]]];
    cbv zeta in *; rewrite Heq; repeat split; try reflexivity.
  - intros Hno _. exfalso. apply Hn. apply filter_nil_iff. auto.
  - intros Hno _. exfalso. apply Hn. apply filter_nil_iff. auto.
  - intros [c [Hin Hv]]. rewrite filter_nil_iff in Hn. apply Hn in Hin.
    rewrite Hv in Hin. discriminate.
  - intros _ Hno. exfalso. apply Hm. apply filter_nil_iff. auto.
  - intros [c [Hin Hv]]. rewrite filter_nil_iff in Hn. apply Hn in Hin.
    rewrite Hv in Hin. discriminate.
  - intros _ [c [Hin Hc]]. rewrite filter_nil_iff in Hm. apply Hm in Hin.
    rewrite Hc in Hin. discriminate.
Qed.

(** Every list [allowed_general] returns, case by case. *)
Lemma allowed_general_inr (trick cards l : list Card) (trump : option string)
    (first : bool) :
  allowed_general trick cards trump first = inr l ->
  (trick = [] /\ l = if first then allowed_first cards else cards)
  \/ (exists t0 ts, trick = t0 :: ts /\ first = true
                    /\ In (mkCard (color t0) VA) cards
                    /\ l = [mkCard (color t0) VA])
  \/ (exists t0 ts high,
        trick = t0 :: ts
        /\ (if first then find_ace (color t0) cards else None) = None
        /\ (forall x, In x (ts ++ cards) -> color x <> color t0)
        /\ high_card (trick ++ follow_subset (color t0) cards trump) trump
           = inr high
        /\ l = overtake high (follow_subset (color t0) cards trump) cards).
Proof.
  intros Hret. destruct trick as [|t0 ts].
  - left. rewrite allowed_general_lead in Hret. injection Hret as <-. auto.
  - right.
    destruct (if first then find_ace (color t0) cards else None) as [a|] eqn:Ea.
    + left. rewrite allowed_general_follow, Ea in Hret. injection Hret as <-.
      destruct first; [| discriminate].
      apply find_ace_Some in Ea. destruct Ea as [-> Hin].
      exists t0, ts. auto.
    + right. destruct (follow_returns _ _ _ _ _ _ Ea Hret) as [Hled [high [Hh Hl]]].
      exists t0, ts, high. auto.
Qed.


(** C10.  Every card of a list returned by [allowed_general] is a card of
    the hand, for every trick, hand, trump and flag. *)
Theorem allowed_general_from_hand (trick cards l : list Card)
    (trump : option string) (first : bool)
    (Hret : allowed_general trick cards trump first = inr l) :
  Forall (fun c => In c cards) l.
Proof.
  apply Forall_forall. intros c.
  destruct (allowed_general_inr _ _ _ _ _ Hret)
    as [[_ ->] | [[t0 [ts [_ [_ [Hin ->]]]]] | [t0 [ts [high [_ [_ [_ [_ ->]]]]]]]]].
  - destruct first; [apply allowed_first_incl | tauto].
  - intros [<- | []]. assumption.
  - destruct (overtake_cases high (follow_subset (color t0) cards trump) cards)
      as [[h [_ [Hin Hr]]] | [[_ [_ Hr]] | [_ Hr]]]; rewrite Hr.
    + intros [<- | []]. now apply follow_subset_incl in Hin.
    + apply follow_subset_incl.
    + tauto.
Qed.

Lemma allowed_general_from_hand_witness :
  Forall (fun c => In c [mkCard Gruen VZ; mkCard Gruen V7; mkCard Schell V6])
         [mkCard Gruen V7].
Proof.
  apply (allowed_general_from_hand [mkCard Rot VA]
           [mkCard Gruen VZ; mkCard Gruen V7; mkCard Schell V6] [mkCard Gruen V7]
           (Some "g") false).
  reflexivity.
Defined.

(** ** Beating cards (utils.py, [higher_cards]) *)

(** Without a trump, [higher_cards] is the cards of the pool that have the
    colour of [base] and are higher than [base]. *)
Lemma higher_cards_no_trump (base : Card) (trump : option string)
    (pool : list Card) (c : Card) :
  truthy trump = false ->
  In c (higher_cards base trump (Some pool)) <->
  In c pool /\ color c = color base /\ is_higher_than c base = true.
Proof.
  intros Ht. unfold higher_cards. rewrite Ht. simpl.
  rewrite filter_In, andb_true_iff, Color_eqb_eq. intuition congruence.
Qed.

(** With a trump, [higher_cards] adds every card of the trump colour. *)
Lemma higher_cards_trump (base : Card) (trump : option string)
    (pool : list Card) (c : Card) :
  truthy trump = true ->
  In c (higher_cards base trump (Some pool)) <->
  In c pool /\ ((color c = color base /\ is_higher_than c base = true)
                \/ color_is trump c = true).
Proof.
  intros Ht. unfold higher_cards. rewrite Ht. simpl.
  rewrite filter_In, orb_true_iff, andb_true_iff, Color_eqb_eq.
  intuition congruence.
Qed.

Lemma is_higher_than_irrefl (c : Card) : is_higher_than c c = false.
Proof. unfold is_higher_than. apply Nat.ltb_irrefl. Qed.

(** When [base] is not of the trump colour it is not in the result. *)
Lemma higher_cards_excludes_base (base : Card) (trump : option string)
    (pool : list Card) :
  color_is trump base = false ->
  ~ In base (higher_cards base trump (Some pool)).
Proof.
  intros Hb Hin. destruct (truthy trump) eqn:Ht.
  - apply higher_cards_trump in Hin; [| assumption].
    rewrite is_higher_than_irrefl, Hb in Hin.
    destruct Hin as [_ [[_ H] | H]]; discriminate.
  - apply higher_cards_no_trump in Hin; [| assumption].
    rewrite is_higher_than_irrefl in Hin. destruct Hin as [_ [_ H]]. discriminate.
Qed.

(** C5, the code at the failing input.  Without trump the cards beating
    Rot-K in the full deck are Rot-O, Rot-U, Rot-9, Rot-8, Rot-7, Rot-6.  With
    trump "r" the result for the same base is the whole Rot colour: it holds
    Rot-K itself, and Rot-A, which is not higher than Rot-K. *)
Theorem higher_cards_base_of_trump_colour :
  higher_cards (mkCard Rot VK) None None
  = [mkCard Rot VO; mkCard Rot VU; mkCard Rot V9; mkCard Rot V8;
     mkCard Rot V7; mkCard Rot V6]
  /\ higher_cards (mkCard Rot VK) (Some "r") None = all_color_cards Rot
  /\ In (mkCard Rot VK) (higher_cards (mkCard Rot VK) (Some "r") None)
  /\ In (mkCard Rot VA) (higher_cards (mkCard Rot VK) (Some "r") None)
  /\ is_higher_than (mkCard Rot VA) (mkCard Rot VK) = false.
Proof.
  assert (E : higher_cards (mkCard Rot VK) (Some "r") None = all_color_cards Rot)
    by reflexivity.
  rewrite E. repeat split; simpl; tauto.
Qed.

(** ** Descending stable sort *)

Section SortedDesc.
Context {A : Type} (key : A -> nat).

Let ge_key (a b : A) : Prop := key b <= key a.

Lemma insert_desc_perm (x : A) (l : list A) :
  Permutation (insert_desc key x l) (x :: l).
Proof.
  induction l as [|y ys IH]; simpl; [reflexivity |].
  destruct (key x <? key y); [| reflexivity].
  rewrite IH. apply perm_swap.
Qed.

Lemma sorted_desc_perm (l : list A) : Permutation (sorted_desc key l) l.
Proof.
  induction l as [|x xs IH]; simpl; [reflexivity |].
  rewrite insert_desc_perm. now constructor.
Qed.

Lemma insert_desc_sorted (x : A) (l : list A) :
  StronglySorted ge_key l -> StronglySorted ge_key (insert_desc key x l).
Proof.
  induction l as [|y ys IH]; intros Hs; simpl.
  - repeat constructor.
  - inversion Hs as [|? ? Hys Hall]; subst.
    destruct (Nat.ltb_spec (key x) (key y)) as [Hlt | Hge].
    + constructor; [now apply IH |].
      apply Forall_forall. intros z Hz.
      apply (Permutation_in _ (insert_desc_perm x ys)) in Hz.
      destruct Hz as [<- | Hz]; [unfold ge_key; lia |].
      rewrite Forall_forall in Hall. now apply Hall.
    + constructor; [assumption |].
      constructor; [exact Hge |].
      rewrite Forall_forall in *. intros z Hz. specialize (Hall z Hz).
      unfold ge_key in *. lia.
Qed.

Lemma sorted_desc_sorted (l : list A) : StronglySorted ge_key (sorted_desc key l).
Proof.
  induction l as [|x xs IH]; simpl; [constructor | now apply insert_desc_sorted].
Qed.

Lemma skipn_In (l : list A) (k : nat) (r : A) : In r (skipn k l) -> In r l.
Proof.
  intros H. rewrite <- (firstn_skipn k l). apply in_or_app. now right.
Qed.

Lemma firstn_In (l : list A) (k : nat) (e : A) : In e (firstn k l) -> In e l.
Proof.
  intros H. rewrite <- (firstn_skipn k l). apply in_or_app. now left.
Qed.

Lemma sorted_firstn_skipn (l : list A) (k : nat) (e r : A) :
  StronglySorted ge_key l ->
  In e (firstn k l) -> In r (skipn k l) -> key r <= key e.
Proof.
  intros Hs. revert k. induction Hs as [|x xs Hxs IH Hall]; intros k He Hr.
  - destruct k; destruct He.
  - destruct k as [|k]; [destruct He |]. simpl in He, Hr.
    destruct He as [<- | He].
    + rewrite Forall_forall in Hall. apply Hall.
      apply (skipn_In xs k). exact Hr.
    + now apply (IH k).
Qed.

(** The first [k] elements of the sorted list: [k] elements of [l] that no
    other element of [l] exceeds. *)
Lemma sorted_desc_top (l : list A) (k : nat) :
  k <= length l ->
  let top := firstn k (sorted_desc key l) in
  let rest := skipn k (sorted_desc key l) in
  Permutation l (top ++ rest) /\ length top = k
  /\ forall e r, In e top -> In r rest -> key r <= key e.
Proof.
  intros Hk. cbv zeta. split; [| split].
  - rewrite firstn_skipn. symmetry. apply sorted_desc_perm.
  - apply firstn_length_le.
    rewrite (Permutation_length (sorted_desc_perm l)). exact Hk.
  - intros e r. apply sorted_firstn_skipn. apply sorted_desc_sorted.
Qed.

(** The head of the sorted list carries the greatest key. *)
Lemma sorted_desc_head (l : list A) (m : A) :
  In m l ->
  exists x xs, sorted_desc key l = x :: xs /\ In x l /\ key m <= key x.
Proof.
  intros Hm.
  pose proof (sorted_desc_perm l) as Hp.
  pose proof (sorted_desc_sorted l) as Hs.
  destruct (sorted_desc key l) as [|x xs].
  - apply Permutation_nil in Hp. subst l. destruct Hm.
  - exists x, xs. split; [reflexivity |]. split.
    + apply (Permutation_in _ Hp). now left.
    + apply (Permutation_in _ (Permutation_sym Hp)) in Hm.
      destruct Hm as [<- | Hm]; [lia |].
      inversion Hs as [|? ? _ Hall]; subst.
      rewrite Forall_forall in Hall. now apply Hall.
Qed.
End SortedDesc.

(** ** Standing cards (agent.py, [_standing_cards]) *)

Lemma cards_of_suit_In (su : Color) (hand : list Card) (c : Card) :
  In c (cards_of_suit su hand) <-> In c hand /\ suit c = su.
Proof. unfold cards_of_suit. now rewrite filter_In, Color_eqb_eq. Qed.

(** Two cards of one suit with the same rank are the same card. *)
Lemma same_suit_rank (a b : Card) : suit a = suit b -> rank a = rank b -> a = b.
Proof.
  unfold suit, rank. intros Hs Hr. apply value_index_inj in Hr.
  destruct a, b; simpl in *; congruence.
Qed.

Lemma standing_of_suit_In (possible : dict) (hand : list Card) (su : Color)
    (c : Card) :
  In c (standing_of_suit possible hand su) -> In c hand /\ suit c = su.
Proof.
  unfold standing_of_suit.
  destruct (max_key rank (cards_of_suit su hand) None) as [h|] eqn:Eh;
    [| intros []].
  apply max_key_Some in Eh. destruct Eh as [Hh _].
  intros Hin. apply in_app_or in Hin. apply cards_of_suit_In.
  destruct Hin as [Hin | Hin].
  - destruct (max_key rank (dict_get possible su []) None); [| destruct Hin].
    destruct (rank c0 <=? rank h); [| destruct Hin].
    destruct Hin as [<- | []]. assumption.
  - destruct (length (dict_get possible su []) <? length (cards_of_suit su hand));
      [| destruct Hin].
    apply firstn_In in Hin.
    now apply (Permutation_in _ (sorted_desc_perm rank _)) in Hin.
Qed.

Lemma suit_set_In (hand : list Card) (su : Color) :
  In su (suit_set hand) <-> exists c, In c hand /\ suit c = su.
Proof.
  unfold suit_set. rewrite nodup_In, in_map_iff.
  split; intros [c [H1 H2]]; exists c; tauto.
Qed.

(** Without a trump a card is returned exactly when the pass of the loop for
    its own suit appends it, in whatever order the suits are visited. *)
Lemma standing_loop_In (order : list Color) (possible : dict) (hand : list Card)
    (c : Card) :
  (forall su, In su order <-> exists x, In x hand /\ suit x = su) ->
  In c (standing_loop order possible hand) <->
  In c (standing_of_suit possible hand (suit c)).
Proof.
  intros Horder. unfold standing_loop. rewrite in_flat_map. split.
  - intros [su [_ Hin]].
    destruct (standing_of_suit_In _ _ _ _ Hin) as [_ <-]. exact Hin.
  - intros Hin. exists (suit c). split; [| exact Hin].
    apply Horder. exists c. split; [| reflexivity].
    now apply standing_of_suit_In in Hin.
Qed.

Lemma standing_no_trump_In (possible : dict) (hand : list Card)
    (trump : option string) (c : Card) :
  truthy trump = false ->
  In c (_standing_cards possible hand trump) <->
  In c (standing_of_suit possible hand (suit c)).
Proof.
  intros Ht. unfold _standing_cards. rewrite Ht.
  apply standing_loop_In. apply suit_set_In.
Qed.

(** The card [max] selects among the cards of a suit is the one no card of
    that suit in the hand outranks. *)
Lemma highest_in_hand_unique (hand : list Card) (su : Color) (h : Card) :
  In h hand -> suit h = su ->
  (forall c, In c hand -> suit c = su -> rank c <= rank h) ->
  max_key rank (cards_of_suit su hand) None = Some h.
Proof.
  intros Hin Hsu Hmax.
  assert (Hown : In h (cards_of_suit su hand)) by now apply cards_of_suit_In.
  destruct (max_key_spec rank (cards_of_suit su hand) None) as [m [Hm [Hmin Hmm]]].
  { intros E. rewrite E in Hown. destruct Hown. }
  rewrite Hm. f_equal. apply cards_of_suit_In in Hmin. destruct Hmin as [Hmh Hms].
  apply same_suit_rank; [congruence |].
  specialize (Hmax m Hmh Hms). specialize (Hmm h Hown). lia.
Qed.

(** When the hand has more cards of the suit than there are possible cards,
    the highest card of the suit is among the excess cards. *)
Lemma highest_in_excess (hand : list Card) (su : Color) (h : Card) (k : nat) :
  max_key rank (cards_of_suit su hand) None = Some h -> 0 < k ->
  In h (firstn k (sorted_desc rank (cards_of_suit su hand))).
Proof.
  intros Hh Hk. apply max_key_Some in Hh. destruct Hh as [Hin Hmax].
  destruct (sorted_desc_head rank _ h Hin) as [x [xs [Hs [Hx Hle]]]].
  rewrite Hs. destruct k as [|k]; [lia |]. simpl. left.
  apply cards_of_suit_In in Hin. pose proof (Hmax x Hx) as Hxh.
  apply cards_of_suit_In in Hx.
  apply same_suit_rank; [destruct Hin, Hx; congruence | lia].
Qed.

Lemma standing_of_suit_highest (possible : dict) (hand : list Card) (su : Color)
    (h : Card) :
  max_key rank (cards_of_suit su hand) None = Some h ->
  In h (standing_of_suit possible hand su) <->
  (forall p, In p (dict_get possible su []) -> rank p <= rank h)
  \/ length (dict_get possible su []) < length (cards_of_suit su hand).
Proof.
  intros Hh. unfold standing_of_suit. rewrite Hh.
  assert (Hpos : 0 < length (cards_of_suit su hand)).
  { apply max_key_Some in Hh. destruct Hh as [Hin _].
    destruct (cards_of_suit su hand); [destruct Hin | simpl; lia]. }
  assert (Hexcess :
    length (dict_get possible su []) < length (cards_of_suit su hand) ->
    In h (if length (dict_get possible su []) <? length (cards_of_suit su hand)
          then firstn (length (cards_of_suit su hand)
                       - length (dict_get possible su []))
                      (sorted_desc rank (cards_of_suit su hand))
          else [])).
  { intros Hlt. apply Nat.ltb_lt in Hlt. rewrite Hlt. apply Nat.ltb_lt in Hlt.
    apply highest_in_excess; [assumption | lia]. }
  rewrite in_app_iff. split.
  - intros [Hin | Hin].
    + destruct (max_key rank (dict_get possible su []) None) as [hp|] eqn:Ep;
        [| destruct Hin].
      destruct (Nat.leb_spec (rank hp) (rank h)) as [Hle | Hgt]; [| destruct Hin].
      left. intros p Hp. apply max_key_Some in Ep. destruct Ep as [_ Hmax].
      specialize (Hmax p Hp). lia.
    + right.
      destruct (Nat.ltb_spec (length (dict_get possible su []))
                  (length (cards_of_suit su hand))); [assumption | destruct Hin].
  - intros [Hall | Hlt]; [| right; now apply Hexcess].
    destruct (max_key rank (dict_get possible su []) None) as [hp|] eqn:Ep.
    + left. apply max_key_Some in Ep. destruct Ep as [Hp _].
      apply Hall in Hp. apply Nat.leb_le in Hp. rewrite Hp. now left.
    + right. apply max_key_None in Ep. apply Hexcess. rewrite Ep. simpl. lia.
Qed.

Lemma standing_of_suit_excess (possible : dict) (hand : list Card) (su : Color)
    (e : Card) :
  In e (firstn (length (cards_of_suit su hand) - length (dict_get possible su []))
               (sorted_desc rank (cards_of_suit su hand))) ->
  In e (standing_of_suit possible hand su).
Proof.
  intros Hin. unfold standing_of_suit.
  destruct (max_key rank (cards_of_suit su hand) None) as [h|] eqn:Eh.
  - apply in_or_app. right.
    destruct (Nat.ltb_spec (length (dict_get possible su []))
                (length (cards_of_suit su hand))) as [Hlt | Hge]; [assumption |].
    replace (length (cards_of_suit su hand) - length (dict_get possible su []))
      with 0 in Hin by lia.
    destruct Hin.
  - apply max_key_None in Eh. rewrite Eh in Hin. simpl in Hin.
    destruct Hin.
Qed.

(** C8, as amended.  With a declared trump [_standing_cards] returns at most
    one card: nothing when the hand has no card of the trump colour, and
    otherwise the card of the trump colour in the hand that no other such
    card outranks.  Without a trump, let [h] be the highest card of its suit
    in the hand, [owned] the cards of that suit in the hand and [opp] the
    possible cards recorded for that suit: [h] is returned exactly when no
    card of [opp] outranks it or [owned] is longer than [opp]; and the
    [length owned - length opp] highest cards of [owned] are all returned. *)
Theorem standing_cards_spec (possible : dict) (player_hand : list Card)
    (trump_suit : option string) :
  (truthy trump_suit = true ->
     length (_standing_cards possible player_hand trump_suit) <= 1
     /\ ((forall c, In c player_hand -> color_is trump_suit c = false) ->
         _standing_cards possible player_hand trump_suit = [])
     /\ ((exists c, In c player_hand /\ color_is trump_suit c = true) ->
         exists h, _standing_cards possible player_hand trump_suit = [h]
                   /\ In h player_hand /\ color_is trump_suit h = true
                   /\ forall c, In c player_hand -> color_is trump_suit c = true ->
                                rank c <= rank h))
  /\ (truthy trump_suit = false ->
      forall h : Card,
        In h player_hand ->
        (forall c, In c player_hand -> suit c = suit h -> rank c <= rank h) ->
        let owned := cards_of_suit (suit h) player_hand in
        let opp := dict_get possible (suit h) [] in
        (In h (_standing_cards possible player_hand trump_suit) <->
           (forall p, In p opp -> rank p <= rank h) \/ length opp < length owned)
        /\ exists excess rest,
             Permutation owned (excess ++ rest)
             /\ length excess = length owned - length opp
             /\ (forall e r, In e excess -> In r rest -> rank r <= rank e)
             /\ (forall e, In e excess ->
                   In e (_standing_cards possible player_hand trump_suit))).
Proof.
  split.
  - intros Ht. unfold _standing_cards. rewrite Ht.
    destruct (max_key rank (filter (color_is trump_suit) player_hand) None)
      as [h|] eqn:Eh.
    + split; [simpl; lia |]. apply max_key_Some in Eh. destruct Eh as [Hin Hmax].
      apply filter_In in Hin. destruct Hin as [Hin Hc]. split.
      * intros Hno. apply Hno in Hin. congruence.
      * intros _. exists h. repeat split; try assumption.
        intros c Hc1 Hc2. apply Hmax. now apply filter_In.
    + split; [simpl; lia |]. split; [reflexivity |].
      intros [c [Hin Hc]]. apply max_key_None in Eh.
      exfalso. now apply (filter_not_nil _ _ _ Hin Hc).
  - intros Ht h Hin Hmax. cbv zeta.
    pose proof (highest_in_hand_unique player_hand (suit h) h Hin eq_refl Hmax)
      as Hh.
    split.
    + rewrite (standing_no_trump_In _ _ _ _ Ht).
      now apply standing_of_suit_highest.
    + set (owned := cards_of_suit (suit h) player_hand).
      set (k := length owned - length (dict_get possible (suit h) [])).
      exists (firstn k (sorted_desc rank owned)), (skipn k (sorted_desc rank owned)).
      destruct (sorted_desc_top rank owned k) as [Hp [Hl Hord]]; [unfold k; lia |].
      repeat split; try assumption.
      intros e He. apply (standing_no_trump_In _ _ _ _ Ht).
      assert (Hs : suit e = suit h).
      { apply firstn_In in He.
        apply (Permutation_in _ (sorted_desc_perm rank owned)) in He.
        now apply cards_of_suit_In in He. }
      rewrite Hs. now apply standing_of_suit_excess.
Qed.

(** C8 as stated fails in the direction "only when": with the hand Rot-A,
    Rot-Z and the single possible Rot card Rot-6, the highest Rot card of the
    hand is Rot-Z, the possible card Rot-6 outranks it, and Rot-Z is returned
    all the same, as the one excess card of the suit. *)
Lemma standing_highest_despite_outranked :
  let possible : dict :=
    fun su => match su with Rot => Some [mkCard Rot V6] | _ => None end in
  let hand := [mkCard Rot VA; mkCard Rot VZ] in
  In (mkCard Rot VZ) hand
  /\ (forall c, In c hand -> suit c = Rot -> rank c <= rank (mkCard Rot VZ))
  /\ In (mkCard Rot V6) (dict_get possible Rot [])
  /\ rank (mkCard Rot VZ) < rank (mkCard Rot V6)
  /\ _standing_cards possible hand None = [mkCard Rot VZ]
  /\ ~ (In (mkCard Rot VZ) (_standing_cards possible hand None) <->
        forall p, In p (dict_get possible Rot []) -> rank p <= rank (mkCard Rot VZ)).
Proof.
  cbv zeta.
  assert (Hr : rank (mkCard Rot VZ) < rank (mkCard Rot V6)) by (vm_compute; lia).
  repeat split.
  - simpl. tauto.
  - intros c [<- | [<- | []]] _; vm_compute; lia.
  - simpl. tauto.
  - exact Hr.
  - intros [H _].
    assert (Hin : In (mkCard Rot VZ) [mkCard Rot VZ]) by (simpl; tauto).
    specialize (H Hin (mkCard Rot V6) (or_introl eq_refl)). lia.
Qed.

(** * Further properties of the code *)

(** ** The constructor and [__str__] (card.py) *)

(** X1.  Building a card from the colour and the value of an existing card
    gives that card back, and [__str__] tells any two different cards
    apart. *)
Theorem Card_init_roundtrip (c : Card) :
  Card_init (color_code (color c)) (value_code (value c)) = inr c
  /\ forall c' : Card, Card_str c' = Card_str c -> c' = c.
Proof.
  split; [destruct c as [[] []]; reflexivity |].
  intros c'. unfold Card_str.
  assert (Hc : forall x : Color, exists ch, color_code x = String ch EmptyString)
    by (intros []; eexists; reflexivity).
  assert (Hv : forall x : Value, exists ch, value_code x = String ch EmptyString)
    by (intros []; eexists; reflexivity).
  destruct (Hc (color c)) as [a Ea], (Hc (color c')) as [a' Ea'],
           (Hv (value c)) as [b Eb], (Hv (value c')) as [b' Eb'].
  rewrite Ea, Ea', Eb, Eb'. simpl. intros [= -> ->].
  rewrite <- Ea in Ea'. rewrite <- Eb in Eb'.
  apply color_code_inj in Ea'. apply value_code_inj in Eb'.
  destruct c, c'; simpl in *; congruence.
Qed.

(** X2.  The colour is tested before the value: a colour outside [COLORS]
    raises [ValueError("Invalid color: <colour>")] whatever the value, and a
    valid colour with a value outside [VALUES] raises
    [ValueError("Invalid value: <value>")]. *)
Theorem Card_init_error_order (col val : string) :
  (~ In col (map color_code COLORS) ->
     Card_init col val = inl (ValueError ("Invalid color: " ++ col)%string))
  /\ (In col (map color_code COLORS) -> ~ In val (map value_code VALUES) ->
        Card_init col val = inl (ValueError ("Invalid value: " ++ val)%string)).
Proof.
  unfold Card_init.
  pose proof (find_color_code col) as Hc.
  pose proof (find_value_code val) as Hv.
  destruct (find _ COLORS) as [c|]; destruct (find _ VALUES) as [v|]; split;
    try reflexivity; intros; try contradiction.
  - exfalso. apply H. apply in_map_iff. eauto using COLORS_complete.
  - exfalso. apply H0. apply in_map_iff. eauto using VALUES_complete.
  - exfalso. apply H. apply in_map_iff. eauto using COLORS_complete.
Qed.

(** ** The rank comparison as an order (card.py) *)

(** X3.  [is_higher_than] is a strict order on cards that is total on the
    values: no card is higher than itself, it is asymmetric and transitive,
    two cards neither of which is higher than the other have the same value,
    and of two different cards of one colour one is higher than the other. *)
Theorem is_higher_than_strict_total (a b c : Card) :
  is_higher_than a a = false
  /\ (is_higher_than a b = true -> is_higher_than b a = false)
  /\ (is_higher_than a b = true -> is_higher_than b c = true ->
        is_higher_than a c = true)
  /\ (is_higher_than a b = false -> is_higher_than b a = false ->
        value a = value b)
  /\ (color a = color b -> a <> b ->
        is_higher_than a b = true \/ is_higher_than b a = true).
Proof.
  unfold is_higher_than. repeat split.
  - apply Nat.ltb_irrefl.
  - rewrite Nat.ltb_lt, Nat.ltb_ge. lia.
  - rewrite !Nat.ltb_lt. lia.
  - rewrite !Nat.ltb_ge. intros H1 H2. apply value_index_inj. lia.
  - intros Hcol Hne. rewrite !Nat.ltb_lt.
    destruct (Nat.lt_trichotomy (value_index a) (value_index b)) as [H | [H | H]];
      [now right | | now left].
    exfalso. apply Hne. apply value_index_inj in H.
    destruct a, b; simpl in *; congruence.
Qed.

(** ** Ascending stable sort and [sorted_cards] (utils.py) *)

Section SortedAsc.
Context {A K : Type} (key : A -> K) (ltb : K -> K -> bool).

Let le_key (a b : A) : Prop := ltb (key b) (key a) = false.

Hypothesis ltb_asym : forall a b, ltb (key a) (key b) = true -> le_key a b.
Hypothesis le_trans : forall a b c, le_key a b -> le_key b c -> le_key a c.

Lemma insert_asc_perm (x : A) (l : list A) :
  Permutation (insert_asc key ltb x l) (x :: l).
Proof.
  induction l as [|y ys IH]; simpl; [reflexivity |].
  destruct (ltb (key y) (key x)); [| reflexivity].
  rewrite IH. apply perm_swap.
Qed.

Lemma sorted_asc_perm (l : list A) : Permutation (sorted_asc key ltb l) l.
Proof.
  induction l as [|x xs IH]; simpl; [reflexivity |].
  rewrite insert_asc_perm. now constructor.
Qed.

Lemma insert_asc_sorted (x : A) (l : list A) :
  StronglySorted le_key l -> StronglySorted le_key (insert_asc key ltb x l).
Proof.
  induction l as [|y ys IH]; intros Hs; simpl.
  - repeat constructor.
  - inversion Hs as [|? ? Hys Hall]; subst.
    destruct (ltb (key y) (key x)) eqn:E.
    + constructor; [now apply IH |].
      apply Forall_forall. intros z Hz.
      apply (Permutation_in _ (insert_asc_perm x ys)) in Hz.
      destruct Hz as [<- | Hz]; [now apply ltb_asym |].
      rewrite Forall_forall in Hall. now apply Hall.
    + constructor; [assumption |].
      constructor; [exact E |].
      rewrite Forall_forall in *. intros z Hz. specialize (Hall z Hz).
      now apply (le_trans x y z).
Qed.

Lemma sorted_asc_sorted (l : list A) :
  StronglySorted le_key (sorted_asc key ltb l).
Proof.
  induction l as [|x xs IH]; simpl; [constructor | now apply insert_asc_sorted].
Qed.

Hypothesis le_antisym : forall a b, le_key a b -> le_key b a -> a = b.

(** Two sorted lists with the same elements are the same list. *)
Lemma sorted_perm_unique (l1 l2 : list A) :
  StronglySorted le_key l1 -> StronglySorted le_key l2 ->
  Permutation l1 l2 -> l1 = l2.
Proof.
  intros H1. revert l2. induction H1 as [|x xs Hxs IH Hx]; intros l2 H2 Hp.
  - apply Permutation_nil in Hp. now subst.
  - destruct H2 as [|y ys Hys Hy].
    + symmetry in Hp. apply Permutation_nil in Hp. discriminate.
    + assert (Hxy : x = y).
      { rewrite Forall_forall in Hx, Hy.
        assert (Hin1 : In x (y :: ys))
          by (apply (Permutation_in _ Hp); now left).
        assert (Hin2 : In y (x :: xs))
          by (apply (Permutation_in _ (Permutation_sym Hp)); now left).
        destruct Hin1 as [-> | Hin1]; [reflexivity |].
        destruct Hin2 as [-> | Hin2]; [reflexivity |].
        apply le_antisym; [now apply Hx | now apply Hy]. }
      subst y. f_equal. apply IH; [assumption |].
      now apply Permutation_cons_inv in Hp.
Qed.
End SortedAsc.

Lemma tuple_ltb_true (a b : nat * nat) :
  tuple_ltb a b = true <-> fst a < fst b \/ (fst a = fst b /\ snd a < snd b).
Proof.
  unfold tuple_ltb.
  rewrite orb_true_iff, andb_true_iff, !Nat.ltb_lt, Nat.eqb_eq. tauto.
Qed.

Lemma tuple_ltb_false (a b : nat * nat) :
  tuple_ltb a b = false <-> fst b < fst a \/ (fst a = fst b /\ snd b <= snd a).
Proof.
  destruct (tuple_ltb a b) eqn:E.
  - apply tuple_ltb_true in E. split; [discriminate | lia].
  - split; [intros _ | reflexivity].
    destruct (Nat.lt_trichotomy (fst a) (fst b)) as [H | [H | H]].
    + assert (tuple_ltb a b = true) by (apply tuple_ltb_true; lia). congruence.
    + destruct (Nat.le_gt_cases (snd b) (snd a)); [lia |].
      assert (tuple_ltb a b = true) by (apply tuple_ltb_true; lia). congruence.
    + lia.
Qed.

Lemma color_index_inj (a b : Card) : color_index a = color_index b -> color a = color b.
Proof. destruct a as [[] ?], b as [[] ?]; simpl; intros H; congruence || discriminate H. Qed.

Lemma sort_key_asym (a b : Card) :
  tuple_ltb (sort_key a) (sort_key b) = true -> card_le a b.
Proof.
  unfold card_le. rewrite tuple_ltb_true, tuple_ltb_false. simpl. lia.
Qed.

Lemma card_le_trans (a b c : Card) : card_le a b -> card_le b c -> card_le a c.
Proof. unfold card_le. rewrite !tuple_ltb_false. simpl. lia. Qed.

Lemma card_le_antisym (a b : Card) : card_le a b -> card_le b a -> a = b.
Proof.
  unfold card_le. rewrite !tuple_ltb_false. simpl. intros H1 H2.
  assert (Hc : color_index a = color_index b) by lia.
  assert (Hv : value_index a = value_index b) by lia.
  apply color_index_inj in Hc. apply value_index_inj in Hv.
  destruct a, b; simpl in *; congruence.
Qed.

(** X4.  [sorted_cards] returns the cards of its argument, each as often as
    it occurs there, in ascending order of the key (index of the colour in
    [COLORS], index of the value in [VALUES]). *)
Theorem sorted_cards_sorted_permutation (cards : list Card) :
  Permutation (sorted_cards cards) cards
  /\ StronglySorted card_le (sorted_cards cards).
Proof.
  split.
  - apply sorted_asc_perm.
  - apply (sorted_asc_sorted sort_key tuple_ltb sort_key_asym card_le_trans).
Qed.

(** X5.  The result of [sorted_cards] depends only on which cards the hand
    holds, not on their order: two hands with the same cards sort to the same
    list. *)
Theorem sorted_cards_canonical (cards cards' : list Card)
    (Hperm : Permutation cards cards') :
  sorted_cards cards = sorted_cards cards'.
Proof.
  apply (sorted_perm_unique sort_key tuple_ltb card_le_antisym).
  - apply (sorted_asc_sorted sort_key tuple_ltb sort_key_asym card_le_trans).
  - apply (sorted_asc_sorted sort_key tuple_ltb sort_key_asym card_le_trans).
  - unfold sorted_cards. rewrite !sorted_asc_perm. exact Hperm.
Qed.

Lemma sorted_cards_canonical_witness :
  sorted_cards [mkCard Gruen VA; mkCard Rot V6; mkCard Rot VK]
  = sorted_cards [mkCard Rot VK; mkCard Gruen VA; mkCard Rot V6].
Proof.
  apply (sorted_cards_canonical [mkCard Gruen VA; mkCard Rot V6; mkCard Rot VK]
           [mkCard Rot VK; mkCard Gruen VA; mkCard Rot V6]).
  apply Permutation_sym.
  apply (perm_trans (perm_swap (mkCard Gruen VA) (mkCard Rot VK) [mkCard Rot V6])).
  apply perm_skip. apply perm_swap.
Defined.

(** X6.  Sorting twice changes nothing, and every rearrangement of the full
    deck sorts to [CARDS]. *)
Theorem sorted_cards_idempotent (cards : list Card) :
  sorted_cards (sorted_cards cards) = sorted_cards cards
  /\ (forall deck, Permutation deck CARDS -> sorted_cards deck = CARDS).
Proof.
  assert (Hs : forall l, StronglySorted card_le (sorted_cards l)).
  { intros l.
    apply (sorted_asc_sorted sort_key tuple_ltb sort_key_asym card_le_trans). }
  assert (Hp : forall l, Permutation (sorted_cards l) l)
    by (intros l; apply sorted_asc_perm).
  split.
  - apply (sorted_perm_unique sort_key tuple_ltb card_le_antisym); auto.
  - intros deck Hd.
    assert (Hc : sorted_cards CARDS = CARDS) by reflexivity.
    rewrite <- Hc.
    apply (sorted_perm_unique sort_key tuple_ltb card_le_antisym); auto.
    rewrite !Hp. exact Hd.
Qed.

(** ** Pairs and halves (utils.py, [contains_pair] and [contains_half]) *)

Lemma color_is_Some (col : string) (c : Card) :
  color_is (Some col) c = true <-> color_code (color c) = col.
Proof. simpl. apply String.eqb_eq. Qed.

Lemma existsb_card (cards : list Card) (col : string) (v : Value) :
  existsb (fun card => color_is (Some col) card && Value_eqb (value card) v) cards
  = true <->
  exists c, color_code c = col /\ In (mkCard c v) cards.
Proof.
  rewrite existsb_exists. split.
  - intros [x [Hin Hx]]. apply andb_true_iff in Hx. destruct Hx as [Hc Hv].
    apply color_is_Some in Hc. apply Value_eqb_eq in Hv.
    exists (color x). split; [assumption |].
    destruct x; simpl in *. now subst.
  - intros [c [Hc Hin]]. exists (mkCard c v). split; [assumption |].
    apply andb_true_iff. split; [now apply color_is_Some | apply Value_eqb_refl].
Qed.

(** X7.  [contains_pair] holds exactly when the hand has both the King and
    the Over of the colour written [col], [contains_half] exactly when it has
    one of the two; so a pair is always a half, and for a string that is no
    colour both are false. *)
Theorem contains_pair_half (cards : list Card) (col : string) :
  (contains_pair cards col = true <->
     exists c, color_code c = col
               /\ In (mkCard c VK) cards /\ In (mkCard c VO) cards)
  /\ (contains_half cards col = true <->
        exists c, color_code c = col
                  /\ (In (mkCard c VK) cards \/ In (mkCard c VO) cards))
  /\ (contains_pair cards col = true -> contains_half cards col = true)
  /\ (~ In col (map color_code COLORS) ->
        contains_pair cards col = false /\ contains_half cards col = false).
Proof.
  assert (Hpair : contains_pair cards col = true <->
                  exists c, color_code c = col
                            /\ In (mkCard c VK) cards /\ In (mkCard c VO) cards).
  { unfold contains_pair. rewrite andb_true_iff, !existsb_card. split.
    - intros [[c [Hc Hk]] [c' [Hc' Ho]]]. exists c.
      assert (c' = c) by (apply color_code_inj; congruence). subst c'. auto.
    - intros [c [Hc [Hk Ho]]]. split; exists c; auto. }
  assert (Hhalf : contains_half cards col = true <->
                  exists c, color_code c = col
                            /\ (In (mkCard c VK) cards \/ In (mkCard c VO) cards)).
  { unfold contains_half. rewrite existsb_exists. split.
    - intros [x [Hin Hx]]. apply andb_true_iff in Hx. destruct Hx as [Hc Hv].
      apply color_is_Some in Hc. exists (color x). split; [assumption |].
      apply orb_true_iff in Hv.
      destruct x as [xc xv]; simpl in *.
      destruct Hv as [Hv | Hv]; apply Value_eqb_eq in Hv; subst xv; auto.
    - intros [c [Hc [Hin | Hin]]]; eexists; (split; [exact Hin |]);
        apply andb_true_iff; (split; [now apply color_is_Some | reflexivity]). }
  split; [exact Hpair |]. split; [exact Hhalf |]. split.
  - rewrite Hpair, Hhalf. intros [c [Hc [Hk _]]]. exists c. auto.
  - intros Hno.
    assert (Hnc : forall c : Color, color_code c <> col).
    { intros c Hc. apply Hno. apply in_map_iff. exists c.
      split; [assumption | apply COLORS_complete]. }
    split.
    + apply not_true_is_false. intros E.
      apply Hpair in E. destruct E as [c [Hc _]]. now apply Hnc in Hc.
    + apply not_true_is_false. intros E.
      apply Hhalf in E. destruct E as [c [Hc _]]. now apply Hnc in Hc.
Qed.

(** ** The cards of a colour and of a value (utils.py) *)

Lemma collect_map_inr {E A B : Type} (f : B -> E + A) (g : B -> A) (l : list B) :
  (forall b, In b l -> f b = inr (g b)) ->
  collect (map f l) = inr (map g l).
Proof.
  induction l as [|b bs IH]; intros H; simpl; [reflexivity |].
  rewrite (H b (or_introl eq_refl)), IH; [reflexivity |].
  intros b' Hb'. apply H. now right.
Qed.

(** X8.  [all_color_cards] lists exactly the cards of the colour, nine
    different cards, each later one higher than each earlier one;
    [all_value_cards] lists exactly the cards of the value, four different
    cards. *)
Theorem all_color_value_cards (col : Color) (v : Value) (c : Card) :
  (In c (all_color_cards col) <-> color c = col)
  /\ NoDup (all_color_cards col) /\ length (all_color_cards col) = 9
  /\ (forall i j a b, i < j ->
        nth_error (all_color_cards col) i = Some a ->
        nth_error (all_color_cards col) j = Some b ->
        is_higher_than b a = true)
  /\ (In c (all_value_cards v) <-> value c = v)
  /\ NoDup (all_value_cards v) /\ length (all_value_cards v) = 4.
Proof.
  repeat split.
  - unfold all_color_cards. rewrite in_map_iff. intros [x [<- _]]. reflexivity.
  - intros <-. unfold all_color_cards. apply in_map_iff.
    exists (value c). split; [now destruct c | apply VALUES_complete].
  - destruct col; repeat constructor; simpl; intuition discriminate.
  - intros i j a b Hij Hi Hj.
    unfold all_color_cards in Hi, Hj. rewrite nth_error_map in Hi, Hj.
    destruct (nth_error VALUES i) as [va|] eqn:Ei; [| discriminate].
    destruct (nth_error VALUES j) as [vb|] eqn:Ej; [| discriminate].
    injection Hi as <-. injection Hj as <-.
    unfold is_higher_than.
    rewrite (nth_VALUES_index (mkCard col va) i Ei).
    rewrite (nth_VALUES_index (mkCard col vb) j Ej).
    now apply Nat.ltb_lt.
  - unfold all_value_cards. rewrite in_map_iff. intros [x [<- _]]. reflexivity.
  - intros <-. unfold all_value_cards. apply in_map_iff.
    exists (color c). split; [now destruct c | apply COLORS_complete].
  - destruct v; repeat constructor; simpl; intuition discriminate.
Qed.

(** X9.  Called with a string, [all_color_cards] and [all_value_cards] go
    through the constructor: the code of a colour (of a value) gives the
    cards of that colour (value); any other string raises the constructor's
    [ValueError] for the colour (the value). *)
Theorem all_cards_raw (s : string) :
  (forall col, color_code col = s ->
     all_color_cards_raw s = inr (all_color_cards col))
  /\ (~ In s (map color_code COLORS) ->
        all_color_cards_raw s = inl (ValueError ("Invalid color: " ++ s)%string))
  /\ (forall v, value_code v = s ->
        all_value_cards_raw s = inr (all_value_cards v))
  /\ (~ In s (map value_code VALUES) ->
        all_value_cards_raw s = inl (ValueError ("Invalid value: " ++ s)%string)).
Proof.
  repeat split.
  - intros col <-. unfold all_color_cards_raw, all_color_cards.
    apply collect_map_inr. intros v _. destruct col, v; reflexivity.
  - intros Hno. unfold all_color_cards_raw, Card_init.
    pose proof (find_color_code s) as Hc.
    destruct (find _ COLORS) as [c|]; [| reflexivity].
    exfalso. apply Hno. apply in_map_iff. eauto using COLORS_complete.
  - intros v <-. unfold all_value_cards_raw, all_value_cards.
    apply collect_map_inr. intros c _. destruct c, v; reflexivity.
  - intros Hno. unfold all_value_cards_raw, Card_init.
    pose proof (find_value_code s) as Hv.
    destruct (find _ VALUES) as [v|]; [| reflexivity].
    exfalso. apply Hno. apply in_map_iff. eauto using VALUES_complete.
Qed.

(** ** More on [higher_cards] (utils.py) *)

Lemma color_is_truthy (trump : option string) (c : Card) :
  color_is trump c = true -> truthy trump = true.
Proof.
  destruct trump as [t|]; simpl; [| discriminate].
  intros H. apply String.eqb_eq in H. subst t. now destruct (color c).
Qed.

(** X10.  A card is returned by [higher_cards] exactly when it is in the
    pool and either has the colour of [base] and is higher than [base], or
    has the trump colour; this holds for every trump argument, declared or
    not.  When [base] is not of the trump colour the result does not hold
    [base]. *)
Theorem higher_cards_membership (base : Card) (trump : option string)
    (pool : list Card) (c : Card) :
  (In c (higher_cards base trump (Some pool)) <->
     In c pool /\ ((color c = color base /\ is_higher_than c base = true)
                   \/ color_is trump c = true))
  /\ (color_is trump base = false ->
        ~ In base (higher_cards base trump (Some pool))).
Proof.
  split; [| apply higher_cards_excludes_base].
  destruct (truthy trump) eqn:Ht.
  - now apply higher_cards_trump.
  - rewrite (higher_cards_no_trump _ _ _ _ Ht). split; [tauto |].
    intros [Hin [H | H]]; [tauto |].
    apply color_is_truthy in H. congruence.
Qed.

(** X11.  Without a trump and with the default pool, the cards beating
    [base] are the cards that follow it in the list of its colour: there are
    [8 - VALUES.index(base.value)] of them. *)
Theorem higher_cards_default_pool (base : Card) (trump : option string)
    (Hno : truthy trump = false) :
  higher_cards base trump None
  = skipn (S (value_index base)) (all_color_cards (color base))
  /\ length (higher_cards base trump None) = 8 - value_index base.
Proof.
  assert (E : higher_cards base trump None = higher_cards base None None).
  { unfold higher_cards. now rewrite Hno. }
  rewrite E. destruct base as [[] []]; split; reflexivity.
Qed.

Lemma higher_cards_default_pool_witness :
  higher_cards (mkCard Eichel VU) (Some "") None
  = skipn (S (value_index (mkCard Eichel VU))) (all_color_cards Eichel)
  /\ length (higher_cards (mkCard Eichel VU) (Some "") None)
     = 8 - value_index (mkCard Eichel VU).
Proof.
  apply (higher_cards_default_pool (mkCard Eichel VU) (Some "")).
  reflexivity.
Defined.

(** ** A trump argument that is no colour *)

(** ** A trump argument that is no colour *)

Lemma color_is_unknown (t : string) (c : Card) :
  ~ In t (map color_code COLORS) -> color_is (Some t) c = false.
Proof.
  intros Hno. apply not_true_is_false. intros H. apply color_is_Some in H.
  apply Hno. apply in_map_iff. exists (color c).
  split; [assumption | apply COLORS_complete].
Qed.

Lemma high_card_ext (cards : list Card) (t1 t2 : option string) :
  (forall c, color_is t1 c = color_is t2 c) ->
  high_card cards t1 = high_card cards t2.
Proof.
  intros H. unfold high_card. destruct cards as [|c0 rest]; [reflexivity |].
  now rewrite (filter_ext _ _ H).
Qed.

Lemma follow_subset_ext (col : Color) (cards : list Card) (t1 t2 : option string) :
  (forall c, color_is t1 c = color_is t2 c) ->
  follow_subset col cards t1 = follow_subset col cards t2.
Proof.
  intros H. unfold follow_subset. now rewrite (filter_ext _ _ H).
Qed.

Lemma allowed_general_ext (trick cards : list Card) (t1 t2 : option string)
    (first : bool) :
  (forall c, color_is t1 c = color_is t2 c) ->
  allowed_general trick cards t1 first = allowed_general trick cards t2 first.
Proof.
  intros H. destruct trick as [|t0 ts].
  - now rewrite !allowed_general_lead.
  - rewrite !allowed_general_follow. cbv zeta.
    rewrite (follow_subset_ext _ _ _ _ H).
    now rewrite (high_card_ext _ _ _ H).
Qed.

(** X12.  A trump string that is none of the four colour codes (the empty
    string of the defaults among them) acts as no trump at all: [high_card],
    [allowed_general] and [higher_cards] end as they end for [None], with
    the same value or the same exception. *)
Theorem unknown_trump_is_no_trump (t : string) (trick cards : list Card)
    (first : bool) (base : Card) (pool : option (list Card))
    (Hno : ~ In t (map color_code COLORS)) :
  high_card cards (Some t) = high_card cards None
  /\ allowed_general trick cards (Some t) first
     = allowed_general trick cards None first
  /\ higher_cards base (Some t) pool = higher_cards base None pool.
Proof.
  assert (H : forall c, color_is (Some t) c = color_is None c).
  { intros c. simpl. now apply color_is_unknown. }
  split; [now apply high_card_ext |]. split; [now apply allowed_general_ext |].
  unfold higher_cards. destruct (truthy (Some t)); simpl negb; cbv iota.
  - apply filter_ext. intros c. rewrite (color_is_unknown t c Hno).
    apply orb_false_r.
  - reflexivity.
Qed.

Lemma unknown_trump_is_no_trump_witness :
  high_card [mkCard Gruen V6; mkCard Schell VZ] (Some "x")
  = high_card [mkCard Gruen V6; mkCard Schell VZ] None
  /\ allowed_general [mkCard Rot VA] [mkCard Gruen V6; mkCard Schell VZ] (Some "x") false
     = allowed_general [mkCard Rot VA] [mkCard Gruen V6; mkCard Schell VZ] None false
  /\ higher_cards (mkCard Rot VK) (Some "x") None
     = higher_cards (mkCard Rot VK) None None.
Proof.
  apply (unknown_trump_is_no_trump "x" [mkCard Rot VA]
           [mkCard Gruen V6; mkCard Schell VZ] false (mkCard Rot VK) None).
  simpl. intros [H | [H | [H | [H | []]]]]; discriminate H.
Defined.

(** ** The winner of a trick as a relation *)

(** ** The winner of a trick as a relation *)

Lemma trump_same_color (trump : option string) (a b : Card) :
  color_is trump a = true -> color_is trump b = true -> color a = color b.
Proof.
  destruct trump as [t|]; simpl; [| discriminate].
  rewrite !String.eqb_eq. intros Ha Hb. apply color_code_inj. congruence.
Qed.

(** Where no second card of the led colour was played, [high_card] returns
    [h] exactly when [h] takes the trick. *)
Lemma high_card_wins (c0 : Card) (rest : list Card) (trump : option string)
    (h : Card) :
  (forall x, In x rest -> color x <> color c0) ->
  high_card (c0 :: rest) trump = inr (Some h) <-> wins (c0 :: rest) trump h.
Proof.
  intros Hled.
  assert (Hone : forall x, In x (c0 :: rest) -> color x = color c0 -> x = c0).
  { intros x [<- | Hx] Hc; [reflexivity | now apply Hled in Hx]. }
  destruct (existsb (color_is trump) (c0 :: rest)) eqn:E.
  - apply existsb_exists in E. destruct E as [c [Hin Hc]].
    destruct (high_card_trump c0 rest trump c Hled Hin Hc)
      as [h' [Hh' [Hin' [Ht' Hmax']]]].
    rewrite Hh'. split.
    + intros [= <-]. split; [assumption | left; auto].
    + intros [Hhin [[Ht Hmax] | [Hno _]]].
      * do 2 f_equal. apply same_suit_rank.
        -- unfold suit. now apply (trump_same_color trump).
        -- unfold rank. specialize (Hmax h' Hin' Ht').
           specialize (Hmax' h Hhin Ht). lia.
      * apply Hno in Hin. congruence.
  - assert (Hno : forall x, In x (c0 :: rest) -> color_is trump x = false).
    { intros x Hx. apply not_true_is_false. intros Hc.
      assert (existsb (color_is trump) (c0 :: rest) = true)
        by (apply existsb_exists; eauto).
      congruence. }
    rewrite (high_card_led c0 rest trump Hled Hno). split.
    + intros [= <-]. split; [now left | right]. split; [assumption |].
      split; [exists c0, rest; auto |].
      intros x Hx Hc. rewrite (Hone x Hx Hc). lia.
    + intros [Hhin [[Ht _] | [_ [[c1 [r1 [[= <- <-] Hc]]] _]]]].
      * apply Hno in Hhin. congruence.
      * now rewrite (Hone h Hhin Hc).
Qed.

(** The winner of a trick still wins when cards other than the led card and
    the winner itself are taken out of the trick. *)
Lemma wins_shrink (c0 : Card) (rest rest' : list Card) (trump : option string)
    (h : Card) :
  wins (c0 :: rest) trump h ->
  (forall x, In x rest' -> In x (c0 :: rest)) ->
  In h (c0 :: rest') ->
  wins (c0 :: rest') trump h.
Proof.
  intros [Hin Hw] Hsub Hh.
  assert (Hsub' : forall x, In x (c0 :: rest') -> In x (c0 :: rest)).
  { intros x [<- | Hx]; [now left | now apply Hsub]. }
  split; [assumption |].
  destruct Hw as [[Ht Hmax] | [Hno [[c1 [r1 [[= <- <-] Hc]]] Hmax]]].
  - left. split; [assumption |]. intros x Hx. apply Hmax. now apply Hsub'.
  - right. split; [intros x Hx; apply Hno; now apply Hsub' |].
    split; [exists c0, rest'; auto |].
    intros x Hx. apply Hmax. now apply Hsub'.
Qed.

Lemma led_perm (col : Color) (l l' : list Card) :
  (forall x, In x l' -> In x l) ->
  (forall x, In x l -> color x <> col) -> forall x, In x l' -> color x <> col.
Proof. intros Hsub H x Hx. apply H. now apply Hsub. Qed.

(** [high_card] on a non-empty sequence returns a card or raises. *)
Lemma high_card_outcome (c0 : Card) (rest : list Card) (trump : option string) :
  (exists x, In x rest /\ color x = color c0)
  \/ ((forall x, In x rest -> color x <> color c0)
      /\ exists h, high_card (c0 :: rest) trump = inr (Some h)).
Proof.
  destruct (is_empty (filter (fun card => Color_eqb (color card) (color c0)) rest))
    eqn:E.
  - right. pose proof (proj1 (no_led_iff _ _) E) as Hled. split; [assumption |].
    rewrite (high_card_returns _ _ _ Hled).
    destruct (filter (color_is trump) (c0 :: rest)) as [|y ys]; simpl; eauto.
  - left. apply is_empty_false in E.
    destruct (filter _ rest) as [|x xs] eqn:Ef; [congruence |].
    assert (Hx : In x (filter (fun card => Color_eqb (color card) (color c0)) rest))
      by (rewrite Ef; now left).
    apply filter_In in Hx. destruct Hx as [Hx Hc]. apply Color_eqb_eq in Hc.
    eauto.
Qed.

(** X13.  The outcome of [high_card] depends on the led card and on which
    cards follow it, not on the order in which they follow: permuting the
    cards after the first changes neither the card returned nor whether
    [TypeError] is raised. *)
Theorem high_card_order_irrelevant (c0 : Card) (rest rest' : list Card)
    (trump : option string)
    (Hperm : Permutation rest rest') :
  high_card (c0 :: rest) trump = high_card (c0 :: rest') trump.
Proof.
  destruct (high_card_outcome c0 rest trump) as [[x [Hx Hc]] | [Hled [h Hh]]].
  - rewrite !high_card_raises; [reflexivity | |]; exists x; split; auto.
    apply (Permutation_in _ Hperm Hx).
  - assert (Hled' : forall x, In x rest' -> color x <> color c0).
    { apply (led_perm _ rest); [| assumption].
      intros x Hx. apply (Permutation_in _ (Permutation_sym Hperm) Hx). }
    rewrite Hh. symmetry. apply (high_card_wins _ _ _ _ Hled').
    apply (high_card_wins _ _ _ _ Hled) in Hh.
    apply (wins_shrink c0 rest rest' trump h Hh).
    + intros x Hx. right. apply (Permutation_in _ (Permutation_sym Hperm) Hx).
    + destruct Hh as [[<- | Hin] _]; [now left | right].
      apply (Permutation_in _ Hperm Hin).
Qed.

Lemma high_card_order_irrelevant_witness :
  high_card [mkCard Rot VA; mkCard Gruen VA; mkCard Gruen V9] (Some "g")
  = high_card [mkCard Rot VA; mkCard Gruen V9; mkCard Gruen VA] (Some "g").
Proof.
  apply (high_card_order_irrelevant (mkCard Rot VA)
           [mkCard Gruen VA; mkCard Gruen V9] [mkCard Gruen V9; mkCard Gruen VA]
           (Some "g")).
  apply perm_swap.
Defined.


(** ** Legal plays and the winner of the trick *)








(** ** When [allowed_general] raises *)


(** ** Trumping in *)



(** ** The allowed cards of the allowed cards *)

(** ** The allowed cards of the allowed cards *)









(** ** More on the standing cards (agent.py) *)

(** X20.  Every card [_standing_cards] returns is a card of the hand, with
    or without a trump. *)
Theorem standing_cards_from_hand (possible : dict) (player_hand : list Card)
    (trump_suit : option string) :
  Forall (fun c => In c player_hand)
         (_standing_cards possible player_hand trump_suit).
Proof.
  apply Forall_forall. intros c. destruct (truthy trump_suit) eqn:Ht.
  - unfold _standing_cards. rewrite Ht.
    destruct (max_key rank (filter (color_is trump_suit) player_hand) None)
      as [h|] eqn:Eh; [| intros []].
    apply max_key_Some in Eh. destruct Eh as [Hin _].
    apply filter_In in Hin. intros [<- | []]. tauto.
  - rewrite (standing_no_trump_In _ _ _ _ Ht). intros Hin.
    now apply standing_of_suit_In in Hin.
Qed.

(** X21.  Without a trump, a card of the hand is standing whenever no
    possible card is recorded for its suit, be the suit absent from the
    dictionary or mapped to the empty list. *)
Theorem standing_when_suit_exhausted (possible : dict) (player_hand : list Card)
    (trump_suit : option string) (c : Card)
    (Hno : truthy trump_suit = false)
    (Hin : In c player_hand)
    (Hempty : dict_get possible (suit c) [] = []) :
  In c (_standing_cards possible player_hand trump_suit).
Proof.
  apply (standing_no_trump_In _ _ _ _ Hno).
  apply standing_of_suit_excess. rewrite Hempty. simpl length.
  rewrite Nat.sub_0_r.
  rewrite <- (Permutation_length (sorted_desc_perm rank _)).
  rewrite firstn_all.
  apply (Permutation_in _ (Permutation_sym (sorted_desc_perm rank _))).
  now apply cards_of_suit_In.
Qed.

Lemma standing_when_suit_exhausted_witness :
  In (mkCard Eichel VA)
     (_standing_cards
        (fun su => match su with Rot => Some [mkCard Rot V6] | _ => None end)
        [mkCard Rot VK; mkCard Eichel V9; mkCard Eichel VA] (Some "")).
Proof.
  apply (standing_when_suit_exhausted
           (fun su => match su with Rot => Some [mkCard Rot V6] | _ => None end)
           [mkCard Rot VK; mkCard Eichel V9; mkCard Eichel VA] (Some "")
           (mkCard Eichel VA)).
  - reflexivity.
  - simpl. tauto.
  - reflexivity.
Defined.

(** X22.  Without a trump the standing cards of a suit are its top cards:
    when a card is standing, every card of the hand of the same suit and of
    at least its rank is standing too. *)
Theorem standing_cards_upward_closed (possible : dict) (player_hand : list Card)
    (trump_suit : option string) (c c' : Card)
    (Hno : truthy trump_suit = false)
    (Hc : In c (_standing_cards possible player_hand trump_suit))
    (Hin : In c' player_hand)
    (Hsuit : suit c' = suit c)
    (Hrank : rank c <= rank c') :
  In c' (_standing_cards possible player_hand trump_suit).
Proof.
  destruct (Nat.eq_dec (rank c) (rank c')) as [Heq | Hne].
  { assert (c' = c) by (apply same_suit_rank; auto). now subst. }
  apply (standing_no_trump_In _ _ _ _ Hno).
  apply (standing_no_trump_In _ _ _ _ Hno) in Hc.
  rewrite Hsuit. revert Hc. unfold standing_of_suit.
  assert (Hown : In c' (cards_of_suit (suit c) player_hand))
    by now apply cards_of_suit_In.
  destruct (max_key rank (cards_of_suit (suit c) player_hand) None) as [h|] eqn:Eh;
    [| intros []].
  apply max_key_Some in Eh. destruct Eh as [_ Hmax].
  intros Hc. apply in_app_or in Hc. apply in_or_app. right.
  destruct Hc as [Hc | Hc].
  - exfalso.
    destruct (max_key rank (dict_get possible (suit c) []) None); [| destruct Hc].
    destruct (rank c0 <=? rank h); [| destruct Hc].
    destruct Hc as [<- | []]. specialize (Hmax c' Hown). lia.
  - destruct (length (dict_get possible (suit c) [])
              <? length (cards_of_suit (suit c) player_hand)); [| destruct Hc].
    set (k := length (cards_of_suit (suit c) player_hand)
              - length (dict_get possible (suit c) [])) in *.
    set (l := sorted_desc rank (cards_of_suit (suit c) player_hand)) in *.
    assert (Hl : In c' l).
    { apply (Permutation_in _ (Permutation_sym (sorted_desc_perm rank _))).
      exact Hown. }
    rewrite <- (firstn_skipn k l) in Hl. apply in_app_or in Hl.
    destruct Hl as [Hl | Hl]; [assumption | exfalso].
    pose proof (sorted_firstn_skipn rank l k c c'
                  (sorted_desc_sorted rank _) Hc Hl).
    lia.
Qed.

Lemma standing_cards_upward_closed_witness :
  In (mkCard Rot V7)
     (_standing_cards
        (fun su => match su with Rot => Some [mkCard Rot V6] | _ => None end)
        [mkCard Rot VA; mkCard Rot V7; mkCard Rot VK] None).
Proof.
  apply (standing_cards_upward_closed
           (fun su => match su with Rot => Some [mkCard Rot V6] | _ => None end)
           [mkCard Rot VA; mkCard Rot V7; mkCard Rot VK] None
           (mkCard Rot VK) (mkCard Rot V7)).
  - reflexivity.
  - vm_compute. tauto.
  - simpl. tauto.
  - reflexivity.
  - vm_compute. lia.
Defined.
